(** * Wakame / MoZuku Japanese linter: analysis pipeline

  A shallow embedding of the analysis core of the language server
  (tokenizer adapter, sentence segmenter, comment extraction, grammar
  rules, Wikipedia cache) together with the properties the specification
  states about it.

  Conventions of the embedding:
  - a JavaScript string is the list of its UTF-16 code units ([jsstring]),
    so [length], [indexOf] and [slice] count code units as in the source;
  - a JavaScript number that holds an offset, a count or a timestamp is a
    [Z]; the Japanese ratio, a quotient of two counts, is an exact
    rational in [Q];
  - an array is a [list]; [push] appends at the end;
  - a function that may [throw] returns a [result];
  - module-level mutable variables are fields of an explicit state record
    that is passed in and returned; calls to the outside (the analyzer
    backend, the network) are logged in that record;
  - what the outside returns (the records of the analyzer, the syntax tree
    of the parser, the response of the network, the clock) is an argument. *)

From Stdlib Require Import ZArith QArith Lia List Ascii String.
From stdpp Require Import base decidable option list numbers gmap.
Import ListNotations.

Set Warnings "-register-all".
Local Open Scope Z_scope.

(** ** JavaScript strings *)

Module JS.

Definition jsstring := list Z.

Definition strlen (s : jsstring) : Z := Z.of_nat (List.length s).

Definition str_eqb (a b : jsstring) : bool := bool_decide (a = b).

(** Source literals are written in UTF-8 in this file and decoded to
    UTF-16 code units. *)
Fixpoint utf8_code_points (bs : list Z) : list Z :=
  match bs with
  | [] => []
  | b0 :: r =>
      if b0 <? 0x80 then b0 :: utf8_code_points r
      else if b0 <? 0xE0 then
        match r with
        | b1 :: r' => ((b0 - 0xC0) * 64 + (b1 - 0x80)) :: utf8_code_points r'
        | _ => []
        end
      else if b0 <? 0xF0 then
        match r with
        | b1 :: b2 :: r' =>
            ((b0 - 0xE0) * 4096 + (b1 - 0x80) * 64 + (b2 - 0x80))
              :: utf8_code_points r'
        | _ => []
        end
      else
        match r with
        | b1 :: b2 :: b3 :: r' =>
            ((b0 - 0xF0) * 262144 + (b1 - 0x80) * 4096
             + (b2 - 0x80) * 64 + (b3 - 0x80))
              :: utf8_code_points r'
        | _ => []
        end
  end.

Definition utf16_of_code_point (cp : Z) : list Z :=
  if cp <? 0x10000 then [cp]
  else [0xD800 + (cp - 0x10000) / 1024; 0xDC00 + (cp - 0x10000) mod 1024].

Definition js (s : string) : jsstring :=
  flat_map utf16_of_code_point
    (utf8_code_points
       (map (fun a => Z.of_N (N_of_ascii a)) (list_ascii_of_string s))).

(** [String.prototype.slice(start, end)]. *)
Definition slice (s : jsstring) (a b : Z) : jsstring :=
  let len := strlen s in
  let from := if a <? 0 then Z.max (len + a) 0 else Z.min a len in
  let to := if b <? 0 then Z.max (len + b) 0 else Z.min b len in
  take (Z.to_nat (Z.max (to - from) 0)) (drop (Z.to_nat from) s).

Fixpoint starts_with (s t : jsstring) : bool :=
  match s, t with
  | [], _ => true
  | c :: s', d :: t' => (c =? d) && starts_with s' t'
  | _ :: _, [] => false
  end.

(** First index [j' >= j] at which [s] occurs in the text whose suffix from
    [j] is [t]; [-1] when there is none. *)
Fixpoint find_from (s t : jsstring) (j : Z) : Z :=
  if starts_with s t then j
  else match t with
       | [] => -1
       | _ :: t' => find_from s t' (j + 1)
       end.

(** [String.prototype.indexOf(search, position)]: the position is clamped
    to [0, length]. *)
Definition indexOf (text s : jsstring) (pos : Z) : Z :=
  let k := Z.min (Z.max pos 0) (strlen text) in
  find_from s (drop (Z.to_nat k) text) k.

(** [String.prototype.includes(search)]. *)
Definition includes (text s : jsstring) : bool :=
  negb (indexOf text s 0 =? -1).

(** [Array.prototype.includes] on an array of strings. *)
Definition array_includes (arr : list jsstring) (s : jsstring) : bool :=
  existsb (str_eqb s) arr.

Definition in_range (lo hi c : Z) : bool := (lo <=? c) && (c <=? hi).

(** The regular-expression class [\s]. *)
Definition isSpace (c : Z) : bool :=
  in_range 0x09 0x0D c || (c =? 0x20) || (c =? 0xA0) || (c =? 0x1680)
  || in_range 0x2000 0x200A c || (c =? 0x2028) || (c =? 0x2029)
  || (c =? 0x202F) || (c =? 0x205F) || (c =? 0x3000) || (c =? 0xFEFF).

(** Line terminators: what [.] does not match and where [^] and [$] match
    under the [m] flag. *)
Definition isLineTerminator (c : Z) : bool :=
  (c =? 0x0A) || (c =? 0x0D) || (c =? 0x2028) || (c =? 0x2029).

Fixpoint dropWhile (p : Z -> bool) (s : jsstring) : jsstring :=
  match s with
  | [] => []
  | c :: s' => if p c then dropWhile p s' else s
  end.

Definition dropWhileEnd (p : Z -> bool) (s : jsstring) : jsstring :=
  rev (dropWhile p (rev s)).

(** [String.prototype.trim()]. *)
Definition trim (s : jsstring) : jsstring :=
  dropWhileEnd isSpace (dropWhile isSpace s).

Definition isHighSurrogate (c : Z) : bool := in_range 0xD800 0xDBFF c.
Definition isLowSurrogate (c : Z) : bool := in_range 0xDC00 0xDFFF c.

(** The string iterator ([for (const char of text)]): one element per code
    point, a surrogate pair being one element of length 2. *)
Fixpoint chars (s : jsstring) : list jsstring :=
  match s with
  | [] => []
  | c :: r =>
      match r with
      | d :: r' =>
          if isHighSurrogate c && isLowSurrogate d
          then [c; d] :: chars r'
          else [c] :: chars r
      | [] => [[c]]
      end
  end.

(** [Buffer.byteLength(s, 'utf-8')]: a lone surrogate is encoded as the
    three bytes of U+FFFD. *)
Definition utf8_char_length (ch : jsstring) : Z :=
  match ch with
  | [c] => if c <? 0x80 then 1 else if c <? 0x800 then 2 else 3
  | _ => 4
  end.

Definition byteLength (s : jsstring) : Z :=
  fold_left (fun n ch => n + utf8_char_length ch) (chars s) 0.

End JS.

Import JS.

(** ** Results of functions that may throw *)

Inductive result (A : Type) : Type :=
| Ok (a : A)
| Throw (msg : string).
Arguments Ok {A} a.
Arguments Throw {A} msg.

(** ** analyzer.ts: tokenizer adapter, sentence segmenter, Japanese ratio *)

Module Analyzer.

(** A record of the morphological analyzer ([kuromoji.IpadicFeatures];
    the MeCab variant has the same fields under the names [word],
    [pos_detail1], [conjugation1], [dictionary_form], ...). A field the
    backend leaves [undefined] is [None]. *)
Record KuromojiToken := {
  surface_form : jsstring;
  k_pos : option jsstring;
  pos_detail_1 : option jsstring;
  pos_detail_2 : option jsstring;
  pos_detail_3 : option jsstring;
  conjugated_type : option jsstring;
  conjugated_form : option jsstring;
  basic_form : option jsstring;
  k_reading : option jsstring;
  k_pronunciation : option jsstring
}.

Record Token := {
  surface : jsstring;
  pos : jsstring;
  posDetail1 : jsstring;
  posDetail2 : jsstring;
  posDetail3 : jsstring;
  conjugationType : jsstring;
  conjugationForm : jsstring;
  baseForm : jsstring;
  reading : jsstring;
  pronunciation : jsstring;
  offset : Z;
  length : Z
}.

Record Sentence := {
  text : jsstring;
  start : Z;
  end_ : Z;
  tokens : list Token
}.

Record AnalysisResult := {
  r_tokens : list Token;
  r_sentences : list Sentence
}.

(** The backend capability [tokenizer.tokenize(text)]. *)
Definition Tokenizer := jsstring -> list KuromojiToken.

(** The module variables [tokenizer] and [initPromise] (a promise is kept
    with the outcome it settled with), and a log of the texts handed to
    the backend. *)
Record State := {
  tokenizer : option Tokenizer;
  initPromise : option (result Tokenizer);
  backendCalls : list jsstring
}.

Definition initialState : State :=
  {| tokenizer := None; initPromise := None; backendCalls := [] |}.

Definition notInitialized : string :=
  "Tokenizer not initialized. Call initializeTokenizer() first.".

(** [initializeTokenizer()], run to completion; [build] is what the
    dictionary builder calls back with. *)
Definition initializeTokenizer (build : result Tokenizer) (st : State)
  : result unit * State :=
  match tokenizer st with
  | Some _ => (Ok tt, st)
  | None =>
      match initPromise st with
      | Some (Ok _) => (Ok tt, st)
      | Some (Throw err) => (Throw err, st)
      | None =>
          match build with
          | Throw err =>
              (Throw err,
               {| tokenizer := None;
                  initPromise := Some (Throw err);
                  backendCalls := backendCalls st |})
          | Ok builtTokenizer =>
              (Ok tt,
               {| tokenizer := Some builtTokenizer;
                  initPromise := Some (Ok builtTokenizer);
                  backendCalls := backendCalls st |})
          end
      end
  end.

Definition isTokenizerReady (st : State) : bool :=
  match tokenizer st with Some _ => true | None => false end.

(** [a ?? b]. *)
Definition nullish (a : option jsstring) (b : jsstring) : jsstring :=
  match a with Some x => x | None => b end.

(** One iteration of the loop of [tokenize]; the loop state is the array
    [tokens] and the cursor [currentOffset]. *)
Definition tokenize_step (text : jsstring)
    (acc : list Token * Z) (kt : KuromojiToken) : list Token * Z :=
  let '(tokens, currentOffset) := acc in
  let tokenStart := indexOf text (surface_form kt) currentOffset in
  let offset := if tokenStart >=? 0 then tokenStart else currentOffset in
  (tokens ++ [ {| surface := surface_form kt;
                  pos := nullish (k_pos kt) (js "*");
                  posDetail1 := nullish (pos_detail_1 kt) (js "*");
                  posDetail2 := nullish (pos_detail_2 kt) (js "*");
                  posDetail3 := nullish (pos_detail_3 kt) (js "*");
                  conjugationType := nullish (conjugated_type kt) (js "*");
                  conjugationForm := nullish (conjugated_form kt) (js "*");
                  baseForm := nullish (basic_form kt) (surface_form kt);
                  reading := nullish (k_reading kt) [];
                  pronunciation := nullish (k_pronunciation kt) [];
                  offset := offset;
                  length := byteLength (surface_form kt) |} ],
   offset + strlen (surface_form kt)).

(** The body of [tokenize] after the readiness check. *)
Definition tokenize_tokens (text : jsstring)
    (kuromojiTokens : list KuromojiToken) : list Token :=
  fst (fold_left (tokenize_step text) kuromojiTokens ([], 0)).

Definition tokenize (st : State) (text : jsstring)
  : result (list Token) * State :=
  match tokenizer st with
  | None => (Throw notInitialized, st)
  | Some tk =>
      let kuromojiTokens := tk text in
      (Ok (tokenize_tokens text kuromojiTokens),
       {| tokenizer := tokenizer st;
          initPromise := initPromise st;
          backendCalls := backendCalls st ++ [text] |})
  end.

Definition sentenceEnders : list jsstring :=
  [js "。"; js "！"; js "？"; js "!"; js "?"; [0x0A]].

Definition isSentenceEnd (token : Token) : bool :=
  array_includes sentenceEnders (surface token)
  || (str_eqb (pos token) (js "記号")
      && array_includes sentenceEnders (surface token)).

(** The loop state of [splitSentences]. *)
Record SplitState := {
  sentences : list Sentence;
  currentStart : Z;
  currentTokens : list Token
}.

Definition split_step (text : jsstring) (st : SplitState) (token : Token)
  : SplitState :=
  let currentTokens := currentTokens st ++ [token] in
  if isSentenceEnd token then
    let sentenceEnd := offset token + strlen (surface token) in
    let sentenceText := slice text (currentStart st) sentenceEnd in
    {| sentences := sentences st ++
         [ {| text := sentenceText;
              start := currentStart st;
              end_ := sentenceEnd;
              tokens := currentTokens |} ];
       currentStart := sentenceEnd;
       currentTokens := [] |}
  else
    {| sentences := sentences st;
       currentStart := currentStart st;
       currentTokens := currentTokens |}.

(** The remaining tokens become a final sentence. *)
Definition split_finish (text : jsstring) (st : SplitState)
  : list Sentence :=
  match last (currentTokens st) with
  | Some lastToken =>
      let sentenceEnd := offset lastToken + strlen (surface lastToken) in
      let sentenceText := slice text (currentStart st) sentenceEnd in
      sentences st ++
        [ {| text := sentenceText;
             start := currentStart st;
             end_ := sentenceEnd;
             tokens := currentTokens st |} ]
  | None => sentences st
  end.

Definition splitSentences (text : jsstring) (tokens : list Token)
  : list Sentence :=
  split_finish text
    (fold_left (split_step text) tokens
       {| sentences := []; currentStart := 0; currentTokens := [] |}).

Definition analyze (st : State) (text : jsstring)
  : result AnalysisResult * State :=
  match tokenize st text with
  | (Throw msg, st') => (Throw msg, st')
  | (Ok tokens, st') =>
      (Ok {| r_tokens := tokens;
             r_sentences := splitSentences text tokens |}, st')
  end.

(** The class of [JAPANESE_REGEX]: Hiragana, Katakana, CJK unified
    ideographs, CJK symbols and punctuation. *)
Definition isJapaneseChar (c : Z) : bool :=
  in_range 0x3040 0x309F c || in_range 0x30A0 0x30FF c
  || in_range 0x4E00 0x9FFF c || in_range 0x3000 0x303F c.

Definition calculateJapaneseRatio (text : jsstring) : Q :=
  if strlen text =? 0 then 0%Q
  else
    let matches := List.filter isJapaneseChar text in
    Qdiv (inject_Z (strlen matches)) (inject_Z (strlen text)).

(** *** The tokenizer adapter without its loop state *)

(** The offset given to a surface when the cursor is at [cursor]. *)
Definition offsetFor (text : jsstring) (cursor : Z) (s : jsstring) : Z :=
  let tokenStart := indexOf text s cursor in
  if tokenStart >=? 0 then tokenStart else cursor.

(** The tokens for the records [kts] when the cursor is at [cursor]. *)
Fixpoint tokens_from (text : jsstring) (cursor : Z)
    (kts : list KuromojiToken) : list Token :=
  match kts with
  | [] => []
  | kt :: rest =>
      match fst (tokenize_step text ([], cursor) kt) with
      | token :: _ =>
          token
            :: tokens_from text (offset token + strlen (surface token)) rest
      | [] => []
      end
  end.

(** [s] occurs in [text] at index [k]. *)
Definition occurs_at (text s : jsstring) (k : Z) : Prop :=
  0 <= k <= strlen text
  /\ starts_with s (drop (Z.to_nat k) text) = true.

(** The offset of a token is the first occurrence of its surface at or
    after the cursor, or the cursor when there is none. *)
Definition located (text : jsstring) (cursor : Z) (token : Token) : Prop :=
  (occurs_at text (surface token) (offset token)
   /\ cursor <= offset token
   /\ forall k, cursor <= k < offset token ->
                ~ occurs_at text (surface token) k)
  \/ (offset token = cursor
      /\ forall k, cursor <= k -> ~ occurs_at text (surface token) k).

(** Every token is located from the cursor the token before leaves. *)
Fixpoint derived (text : jsstring) (cursor : Z) (tokens : list Token)
  : Prop :=
  match tokens with
  | [] => True
  | token :: rest =>
      located text cursor token
      /\ derived text (offset token + strlen (surface token)) rest
  end.

Definition nondecreasing (tokens : list Token) : Prop :=
  forall i t1 t2,
    tokens !! i = Some t1 -> tokens !! S i = Some t2 ->
    offset t1 <= offset t2.

(** *** The sentence segmenter without its loop state *)

(** The sentences made of the buffered tokens [cur], of start [start], and
    of the [tokens] to come. *)
Fixpoint split_from (text : jsstring) (cur : list Token) (start : Z)
    (tokens : list Token) : list Sentence :=
  match tokens with
  | [] =>
      split_finish text
        {| sentences := []; currentStart := start; currentTokens := cur |}
  | token :: rest =>
      if isSentenceEnd token then
        let sentenceEnd := offset token + strlen (surface token) in
        {| text := slice text start sentenceEnd;
           start := start;
           end_ := sentenceEnd;
           tokens := cur ++ [token] |}
          :: split_from text [] sentenceEnd rest
      else split_from text (cur ++ [token]) start rest
  end.



(** The tokens follow one another from [z] without a gap. *)
Fixpoint tiled (z : Z) (ts : list Token) : Prop :=
  match ts with
  | [] => True
  | t :: rest => offset t = z /\ tiled (z + strlen (surface t)) rest
  end.

(** A sentence starts where its first token starts. *)
Definition anchored (s : Sentence) : Prop :=
  exists firstToken,
    head (tokens s) = Some firstToken /\ start s = offset firstToken.

(** The states the module can be in: the initial one, and what calls of
    [initializeTokenizer] and [tokenize] make of them. *)
Inductive reachable : State -> Prop :=
| reachable_initial : reachable initialState
| reachable_initialize build st :
    reachable st -> reachable (snd (initializeTokenizer build st))
| reachable_tokenize text st :
    reachable st -> reachable (snd (tokenize st text)).

(** A promise that resolved has set the tokenizer. *)
Definition settled (st : State) : Prop :=
  forall tk, initPromise st = Some (Ok tk) -> tokenizer st = Some tk.

(** A backend that splits a text into its code units. *)
Definition unitTokenizer : Tokenizer :=
  fun text =>
    map (fun c =>
           {| surface_form := [c]; k_pos := None; pos_detail_1 := None;
              pos_detail_2 := None; pos_detail_3 := None;
              conjugated_type := None; conjugated_form := None;
              basic_form := None; k_reading := None;
              k_pronunciation := None |}) text.

End Analyzer.
(** ** grammar.ts: the six rules *)

Module Grammar.

Import Analyzer.

Record Position := { line : Z; character : Z }.

(** The message templates, kept with the values interpolated in them. *)
Inductive Message :=
| CommaLimitMessage (limit commaCount : Z)
| AdversativeGaMessage (maxCount count : Z)
| DuplicateParticleMessage (surface : jsstring)
| AdjacentParticlesMessage
| ConjunctionRepeatMessage (surface : jsstring)
| RaDroppingMessage.

Record DiagnosticInfo := {
  d_start : Position;
  d_end : Position;
  message : Message;
  severity : Z;
  code : string;
  source : string
}.

Record Rules := {
  commaLimit : bool;
  commaLimitMax : Z;
  adversativeGa : bool;
  adversativeGaMax : Z;
  duplicateParticle : bool;
  adjacentParticles : bool;
  conjunctionRepeat : bool;
  raDropping : bool
}.

Record WakameConfig := { rules : Rules }.

(** The loop of [offsetToPosition] over the characters that remain. *)
Fixpoint offsetToPosition_loop (cs : list jsstring) (offset : Z)
    (line character currentOffset : Z) : Position :=
  match cs with
  | [] => {| line := line; character := character |}
  | char :: cs' =>
      if currentOffset >=? offset
      then {| line := line; character := character |}
      else if str_eqb char [0x0A]
      then offsetToPosition_loop cs' offset (line + 1) 0
             (currentOffset + strlen char)
      else offsetToPosition_loop cs' offset line (character + 1)
             (currentOffset + strlen char)
  end.

Definition offsetToPosition (text : jsstring) (offset : Z) : Position :=
  offsetToPosition_loop (chars text) offset 0 0 0.

Definition isParticle (token : Token) : bool :=
  str_eqb (pos token) (js "助詞").

Definition isAdversativeGa (token : Token) : bool :=
  str_eqb (pos token) (js "助詞")
  && str_eqb (posDetail1 token) (js "接続助詞")
  && str_eqb (baseForm token) (js "が").

Definition isConjunction (token : Token) : bool :=
  str_eqb (pos token) (js "接続詞").

Definition getParticleKey (token : Token) : jsstring :=
  pos token ++ js "," ++ posDetail1 token.

Definition isTargetVerb (token : Token) : bool :=
  str_eqb (pos token) (js "動詞")
  && str_eqb (posDetail1 token) (js "自立")
  && str_eqb (conjugationType token) (js "一段")
  && str_eqb (conjugationForm token) (js "未然形").

Definition isRaWord (token : Token) : bool :=
  str_eqb (pos token) (js "動詞")
  && str_eqb (posDetail1 token) (js "接尾")
  && str_eqb (baseForm token) (js "れる").

Definition isSpecialRaCase (token : Token) : bool :=
  str_eqb (pos token) (js "動詞")
  && (str_eqb (baseForm token) (js "来れる")
      || str_eqb (baseForm token) (js "見れる")).

(** [(text.match(/、/g) || []).length]. *)
Definition countCommas (text : jsstring) : Z :=
  strlen (List.filter (fun c => c =? 0x3001) text).

Definition mkDiagnostic (text : jsstring) (startOffset endOffset : Z)
    (msg : Message) (code : string) : DiagnosticInfo :=
  {| d_start := offsetToPosition text startOffset;
     d_end := offsetToPosition text endOffset;
     message := msg;
     severity := 2;
     code := code;
     source := "wakame" |}.

(** *** comma-limit *)

Definition commaLimit_sentence (text : jsstring) (limit : Z)
    (diagnostics : list DiagnosticInfo) (sentence : Sentence)
  : list DiagnosticInfo :=
  let commaCount := countCommas (Analyzer.text sentence) in
  if commaCount >? limit then
    diagnostics ++
      [mkDiagnostic text (start sentence) (end_ sentence)
         (CommaLimitMessage limit commaCount) "comma-limit"]
  else diagnostics.

Definition checkCommaLimit (text : jsstring) (sentences : list Sentence)
    (config : WakameConfig) : list DiagnosticInfo :=
  if negb (commaLimit (rules config)) then []
  else
    let limit := commaLimitMax (rules config) in
    fold_left (commaLimit_sentence text limit) sentences [].

(** *** adversative-ga *)

Definition adversativeGa_count (count : Z) (token : Token) : Z :=
  if isAdversativeGa token then count + 1 else count.

Definition adversativeGa_sentence (text : jsstring) (maxCount : Z)
    (diagnostics : list DiagnosticInfo) (sentence : Sentence)
  : list DiagnosticInfo :=
  let count := fold_left adversativeGa_count (tokens sentence) 0 in
  if count >? maxCount then
    diagnostics ++
      [mkDiagnostic text (start sentence) (end_ sentence)
         (AdversativeGaMessage maxCount count) "adversative-ga"]
  else diagnostics.

Definition checkAdversativeGa (text : jsstring) (sentences : list Sentence)
    (config : WakameConfig) : list DiagnosticInfo :=
  if negb (adversativeGa (rules config)) then []
  else
    let maxCount := adversativeGaMax (rules config) in
    fold_left (adversativeGa_sentence text maxCount) sentences [].

(** *** duplicate-particle *)

Record DupState := {
  dup_diagnostics : list DiagnosticInfo;
  lastSurface : jsstring;
  lastKey : jsstring;
  lastToken : option Token;
  streak : Z
}.

Definition dup_token (text : jsstring) (st : DupState) (token : Token)
  : DupState :=
  if negb (isParticle token) then st
  else
    let currentKey := getParticleKey token in
    let '(diagnostics, streak) :=
      match lastToken st with
      | Some lastTok =>
          if str_eqb (surface token) (lastSurface st)
             && str_eqb currentKey (lastKey st)
          then
            let streak := streak st + 1 in
            if streak >? 1 then
              let startOffset := offset lastTok in
              let endOffset := offset token + strlen (surface token) in
              (dup_diagnostics st ++
                 [mkDiagnostic text startOffset endOffset
                    (DuplicateParticleMessage (surface token))
                    "duplicate-particle"],
               streak)
            else (dup_diagnostics st, streak)
          else (dup_diagnostics st, 1)
      | None => (dup_diagnostics st, 1)
      end in
    {| dup_diagnostics := diagnostics;
       lastSurface := surface token;
       lastKey := currentKey;
       lastToken := Some token;
       streak := streak |}.

Definition dup_sentence (text : jsstring)
    (diagnostics : list DiagnosticInfo) (sentence : Sentence)
  : list DiagnosticInfo :=
  dup_diagnostics
    (fold_left (dup_token text) (tokens sentence)
       {| dup_diagnostics := diagnostics;
          lastSurface := [];
          lastKey := [];
          lastToken := None;
          streak := 1 |}).

Definition checkDuplicateParticle (text : jsstring)
    (sentences : list Sentence) (config : WakameConfig)
  : list DiagnosticInfo :=
  if negb (duplicateParticle (rules config)) then []
  else fold_left (dup_sentence text) sentences [].

(** *** adjacent-particles *)

Record AdjState := {
  adj_diagnostics : list DiagnosticInfo;
  prevIsParticle : bool;
  prevKey : jsstring;
  prevToken : option Token;
  adj_streak : Z
}.

Definition isAdjacent (prevToken : option Token) (token : Token) : bool :=
  match prevToken with
  | Some prev => offset token =? offset prev + strlen (surface prev)
  | None => false
  end.

Definition adj_token (text : jsstring) (st : AdjState) (token : Token)
  : AdjState :=
  let currentIsParticle := isParticle token in
  let currentKey := getParticleKey token in
  let '(diagnostics, streak) :=
    if currentIsParticle && prevIsParticle st
       && str_eqb currentKey (prevKey st)
       && isAdjacent (prevToken st) token
    then
      let streak := adj_streak st + 1 in
      match prevToken st with
      | Some prev =>
          if streak >? 1 then
            let startOffset := offset prev in
            let endOffset := offset token + strlen (surface token) in
            (adj_diagnostics st ++
               [mkDiagnostic text startOffset endOffset
                  AdjacentParticlesMessage "adjacent-particles"],
             streak)
          else (adj_diagnostics st, streak)
      | None => (adj_diagnostics st, streak)
      end
    else (adj_diagnostics st, 1) in
  {| adj_diagnostics := diagnostics;
     prevIsParticle := currentIsParticle;
     prevKey := if currentIsParticle then currentKey else prevKey st;
     prevToken := if currentIsParticle then Some token else prevToken st;
     adj_streak := streak |}.

Definition adj_sentence (text : jsstring)
    (diagnostics : list DiagnosticInfo) (sentence : Sentence)
  : list DiagnosticInfo :=
  adj_diagnostics
    (fold_left (adj_token text) (tokens sentence)
       {| adj_diagnostics := diagnostics;
          prevIsParticle := false;
          prevKey := [];
          prevToken := None;
          adj_streak := 1 |}).

Definition checkAdjacentParticles (text : jsstring)
    (sentences : list Sentence) (config : WakameConfig)
  : list DiagnosticInfo :=
  if negb (adjacentParticles (rules config)) then []
  else fold_left (adj_sentence text) sentences [].

(** *** conjunction-repeat *)

Record ConjState := {
  conj_diagnostics : list DiagnosticInfo;
  conj_lastSurface : jsstring;
  conj_lastToken : option Token;
  conj_streak : Z
}.

Definition separatedByNewline (text : jsstring) (lastTok token : Token)
  : bool :=
  includes
    (slice text (offset lastTok + strlen (surface lastTok)) (offset token))
    [0x0A].

Definition conj_token (text : jsstring) (st : ConjState) (token : Token)
  : ConjState :=
  if negb (isConjunction token) then st
  else
    let '(diagnostics, streak) :=
      match conj_lastToken st with
      | Some lastTok =>
          if str_eqb (surface token) (conj_lastSurface st)
             && negb (separatedByNewline text lastTok token)
          then
            let streak := conj_streak st + 1 in
            if streak >? 1 then
              let startOffset := offset lastTok in
              let endOffset := offset token + strlen (surface token) in
              (conj_diagnostics st ++
                 [mkDiagnostic text startOffset endOffset
                    (ConjunctionRepeatMessage (surface token))
                    "conjunction-repeat"],
               streak)
            else (conj_diagnostics st, streak)
          else (conj_diagnostics st, 1)
      | None => (conj_diagnostics st, 1)
      end in
    {| conj_diagnostics := diagnostics;
       conj_lastSurface := surface token;
       conj_lastToken := Some token;
       conj_streak := streak |}.

Definition checkConjunctionRepeat (text : jsstring)
    (sentences : list Sentence) (config : WakameConfig)
  : list DiagnosticInfo :=
  if negb (conjunctionRepeat (rules config)) then []
  else
    let allTokens :=
      fold_left (fun all sentence => all ++ tokens sentence) sentences [] in
    conj_diagnostics
      (fold_left (conj_token text) allTokens
         {| conj_diagnostics := [];
            conj_lastSurface := [];
            conj_lastToken := None;
            conj_streak := 1 |}).

(** *** ra-dropping *)

Definition ra_special_token (text : jsstring)
    (diagnostics : list DiagnosticInfo) (token : Token)
  : list DiagnosticInfo :=
  if isSpecialRaCase token then
    diagnostics ++
      [mkDiagnostic text (offset token)
         (offset token + strlen (surface token))
         RaDroppingMessage "ra-dropping"]
  else diagnostics.

Definition ra_pair_token (text : jsstring)
    (st : list DiagnosticInfo * option Token) (token : Token)
  : list DiagnosticInfo * option Token :=
  let '(diagnostics, prevToken) := st in
  match prevToken with
  | Some prev =>
      if isTargetVerb prev && isRaWord token then
        let startOffset := offset prev in
        let endOffset := offset token + strlen (surface token) in
        (diagnostics ++
           [mkDiagnostic text startOffset endOffset
              RaDroppingMessage "ra-dropping"],
         Some token)
      else (diagnostics, Some token)
  | None => (diagnostics, Some token)
  end.

Definition ra_sentence (text : jsstring)
    (diagnostics : list DiagnosticInfo) (sentence : Sentence)
  : list DiagnosticInfo :=
  let diagnostics :=
    fold_left (ra_special_token text) (tokens sentence) diagnostics in
  fst (fold_left (ra_pair_token text) (tokens sentence) (diagnostics, None)).

Definition checkRaDropping (text : jsstring) (sentences : list Sentence)
    (config : WakameConfig) : list DiagnosticInfo :=
  if negb (raDropping (rules config)) then []
  else fold_left (ra_sentence text) sentences [].

(** *** all rules *)

Definition checkGrammar (text : jsstring) (sentences : list Sentence)
    (config : WakameConfig) : list DiagnosticInfo :=
  let diagnostics := [] in
  let diagnostics := diagnostics ++ checkCommaLimit text sentences config in
  let diagnostics :=
    diagnostics ++ checkAdversativeGa text sentences config in
  let diagnostics :=
    diagnostics ++ checkDuplicateParticle text sentences config in
  let diagnostics :=
    diagnostics ++ checkAdjacentParticles text sentences config in
  let diagnostics :=
    diagnostics ++ checkConjunctionRepeat text sentences config in
  let diagnostics := diagnostics ++ checkRaDropping text sentences config in
  diagnostics.

End Grammar.

(** ** Comment extraction: the regular-expression strategy of analyzer.ts
     and the syntax-tree strategy of treeSitterExtractor.ts *)

Module Extract.

Import Analyzer.

Record CommentRange := {
  c_start : Z;
  c_end : Z;
  c_text : jsstring;
  original : jsstring
}.

Definition tripleDouble : jsstring := [0x22; 0x22; 0x22].
Definition tripleSingle : jsstring := js "'''".

(** *** Regular expressions of the source, by shape *)

(** [LinePattern m] stands for the expressions made of a marker [m] and
    the rest of the line (a greedy dot-star group and [$], flags [gm]);
    [BlockPattern o c] for those made of an opening [o], a lazy run of
    any characters and a closing [c] (flag [g]). *)
Inductive Pattern :=
| LinePattern (marker : jsstring)
| BlockPattern (opening closing : jsstring).

Definition lineSlashes := LinePattern (js "//").
Definition blockSlashStar := BlockPattern (js "/*") (js "*/").

(** The table [patterns]; a language identifier is one of the editor's,
    so a key that only [Object.prototype] has is not looked up. *)
Definition patterns (languageId : string) : option (list Pattern) :=
  if String.eqb languageId "javascript" then Some [lineSlashes; blockSlashStar]
  else if String.eqb languageId "typescript" then Some [lineSlashes; blockSlashStar]
  else if String.eqb languageId "javascriptreact" then Some [lineSlashes; blockSlashStar]
  else if String.eqb languageId "typescriptreact" then Some [lineSlashes; blockSlashStar]
  else if String.eqb languageId "python" then
    Some [LinePattern (js "#");
          BlockPattern tripleSingle tripleSingle;
          BlockPattern tripleDouble tripleDouble]
  else if String.eqb languageId "rust" then Some [lineSlashes; blockSlashStar]
  else if String.eqb languageId "c" then Some [lineSlashes; blockSlashStar]
  else if String.eqb languageId "cpp" then Some [lineSlashes; blockSlashStar]
  else if String.eqb languageId "html" then
    Some [BlockPattern (js "<!--") (js "-->")]
  else if String.eqb languageId "latex" then Some [LinePattern (js "%")]
  else None.

Fixpoint takeWhile (p : Z -> bool) (s : jsstring) : jsstring :=
  match s with
  | [] => []
  | c :: s' => if p c then c :: takeWhile p s' else []
  end.

(** [regex.exec(text)] with [regex.lastIndex = lastIndex]: the index and
    the text of the next match, if any. *)
Definition exec (pattern : Pattern) (text : jsstring) (lastIndex : Z)
  : option (Z * jsstring) :=
  match pattern with
  | LinePattern marker =>
      let index := indexOf text marker lastIndex in
      if index =? -1 then None
      else
        let rest := drop (Z.to_nat (index + strlen marker)) text in
        Some (index,
              marker ++ takeWhile (fun c => negb (isLineTerminator c)) rest)
  | BlockPattern opening closing =>
      let index := indexOf text opening lastIndex in
      if index =? -1 then None
      else
        let close := indexOf text closing (index + strlen opening) in
        if close =? -1 then None
        else Some (index, slice text index (close + strlen closing))
  end.

Definition replacePrefix (marker s : jsstring) : jsstring :=
  if starts_with marker s
  then dropWhile isSpace (drop (List.length marker) s)
  else s.

Definition replaceSuffix (marker s : jsstring) : jsstring :=
  rev (replacePrefix (rev marker) (rev s)).

(** The chain of [replace] calls that removes the comment markers. *)
Definition removeMarkers (original : jsstring) : jsstring :=
  let s := replacePrefix (js "//") original in
  let s := replacePrefix (js "/*") s in
  let s := replaceSuffix (js "*/") s in
  let s := replacePrefix (js "#") s in
  let s := replacePrefix (js "%") s in
  let s := replacePrefix (js "<!--") s in
  let s := replaceSuffix (js "-->") s in
  let s := replacePrefix tripleSingle s in
  let s := replaceSuffix tripleSingle s in
  let s := replacePrefix tripleDouble s in
  replaceSuffix tripleDouble s.

(** [ratio > 0.1]. *)
Definition aboveTenth (ratio : Q) : bool := negb (Qle_bool ratio (1 # 10)).

(** The [while ((match = regex.exec(text)) !== null)] loop; every match
    consumes at least its marker, so [fuel] bounds the iterations. *)
Fixpoint exec_loop (fuel : nat) (pattern : Pattern) (text : jsstring)
    (lastIndex : Z) (comments : list CommentRange) : list CommentRange :=
  match fuel with
  | O => comments
  | S fuel' =>
      match exec pattern text lastIndex with
      | None => comments
      | Some (index, original) =>
          let extracted := removeMarkers original in
          let comments :=
            if aboveTenth (calculateJapaneseRatio extracted) then
              comments ++
                [ {| c_start := index;
                     c_end := index + strlen original;
                     c_text := extracted;
                     original := original |} ]
            else comments in
          exec_loop fuel' pattern text (index + strlen original) comments
      end
  end.

Definition extractComments (text : jsstring) (languageId : string)
  : list CommentRange :=
  match patterns languageId with
  | None => []
  | Some langPatterns =>
      fold_left
        (fun comments pattern =>
           exec_loop (S (List.length text)) pattern text 0 comments)
        langPatterns []
  end.

(** *** The syntax-tree strategy *)

(** A node of the tree the parser returns. *)
Inductive SyntaxNode :=
| Node (type text : jsstring) (startIndex endIndex : Z)
       (children : list SyntaxNode).

Definition n_type (n : SyntaxNode) := let 'Node t _ _ _ _ := n in t.
Definition n_text (n : SyntaxNode) := let 'Node _ t _ _ _ := n in t.
Definition startIndex (n : SyntaxNode) := let 'Node _ _ i _ _ := n in i.
Definition endIndex (n : SyntaxNode) := let 'Node _ _ _ i _ := n in i.
Definition children (n : SyntaxNode) := let 'Node _ _ _ _ c := n in c.

(** A loaded grammar, seen through [parser.parse(text).rootNode]. *)
Definition Language := jsstring -> SyntaxNode.

Definition languageGrammarMap (languageId : string) : option string :=
  if String.eqb languageId "javascript" then Some "tree-sitter-javascript"%string
  else if String.eqb languageId "javascriptreact" then Some "tree-sitter-javascript"%string
  else if String.eqb languageId "typescript" then Some "tree-sitter-typescript"%string
  else if String.eqb languageId "typescriptreact" then Some "tree-sitter-tsx"%string
  else if String.eqb languageId "python" then Some "tree-sitter-python"%string
  else if String.eqb languageId "c" then Some "tree-sitter-c"%string
  else if String.eqb languageId "cpp" then Some "tree-sitter-c"%string
  else if String.eqb languageId "html" then Some "tree-sitter-html"%string
  else None.

Definition jsCommentTypes : list jsstring :=
  [js "comment"; js "line_comment"; js "block_comment"].

Definition commentNodeTypes (languageId : string) : list jsstring :=
  if String.eqb languageId "javascript" then jsCommentTypes
  else if String.eqb languageId "javascriptreact" then jsCommentTypes
  else if String.eqb languageId "typescript" then jsCommentTypes
  else if String.eqb languageId "typescriptreact" then jsCommentTypes
  else if String.eqb languageId "python" then [js "comment"; js "string"]
  else if String.eqb languageId "c" then [js "comment"]
  else if String.eqb languageId "cpp" then [js "comment"]
  else if String.eqb languageId "html" then [js "comment"]
  else [].

(** [toLowerCase] on the ASCII letters, which is all a node type has. *)
Definition toLowerCase (s : jsstring) : jsstring :=
  map (fun c => if in_range 0x41 0x5A c then c + 32 else c) s.

Definition isCommentNode (nodeType : jsstring) (languageId : string) : bool :=
  let types := commentNodeTypes languageId in
  if array_includes types nodeType then true
  else if includes (toLowerCase nodeType) (js "comment") then true
  else false.

Definition isPythonDocstring (node : SyntaxNode) : bool :=
  if negb (str_eqb (n_type node) (js "string"))
     && negb (str_eqb (n_type node) (js "string_content"))
  then false
  else
    let text := n_text node in
    starts_with tripleDouble text || starts_with tripleSingle text.

(** [s.replace(/^\s*\*\s?/gm, '')]: at a line start, a run of white
    space, an asterisk and at most one more white-space character are
    removed. [atLineStart] tells whether the position of [s] in the whole
    string follows a line terminator (or is 0). *)
Fixpoint removeLeadingStars (fuel : nat) (atLineStart : bool) (s : jsstring)
  : jsstring :=
  match fuel with
  | O => s
  | S fuel' =>
      let keep :=
        match s with
        | [] => []
        | c :: s' => c :: removeLeadingStars fuel' (isLineTerminator c) s'
        end in
      if atLineStart then
        match dropWhile isSpace s with
        | 0x2A :: r =>
            match r with
            | c :: r' =>
                if isSpace c
                then removeLeadingStars fuel' (isLineTerminator c) r'
                else removeLeadingStars fuel' false r
            | [] => []
            end
        | _ => keep
        end
      else keep
  end.

Definition isCFamily (languageId : string) : bool :=
  String.eqb languageId "javascript"
  || String.eqb languageId "javascriptreact"
  || String.eqb languageId "typescript"
  || String.eqb languageId "typescriptreact"
  || String.eqb languageId "c"
  || String.eqb languageId "cpp".

Definition sanitizeComment (text : jsstring) (languageId : string)
  : jsstring :=
  let sanitized :=
    if isCFamily languageId then
      let s := replacePrefix (js "//") text in
      let s := replaceSuffix (js "*/") (replacePrefix (js "/*") s) in
      removeLeadingStars (S (List.length s)) true s
    else if String.eqb languageId "python" then
      let s := replacePrefix (js "#") text in
      let s :=
        if starts_with tripleSingle s then replacePrefix tripleSingle s
        else replacePrefix tripleDouble s in
      if starts_with (rev tripleSingle) (rev s)
      then replaceSuffix tripleSingle s
      else replaceSuffix tripleDouble s
    else if String.eqb languageId "html" then
      replaceSuffix (js "-->") (replacePrefix (js "<!--") text)
    else text in
  trim sanitized.

(** [ratio >= minJapaneseRatio]. *)
Definition atLeast (ratio minJapaneseRatio : Q) : bool :=
  Qle_bool minJapaneseRatio ratio.

(** One iteration of the traversal: pop a node, test it, push its
    children so that the first child is on top. *)
Definition visit (languageId : string) (minJapaneseRatio : Q)
    (node : SyntaxNode) (comments : list CommentRange)
  : list CommentRange :=
  let isComment := isCommentNode (n_type node) languageId in
  let isDocstring :=
    String.eqb languageId "python" && isPythonDocstring node in
  if isComment || isDocstring then
    let original := n_text node in
    let sanitized := sanitizeComment original languageId in
    if atLeast (calculateJapaneseRatio sanitized) minJapaneseRatio then
      comments ++
        [ {| c_start := startIndex node;
             c_end := endIndex node;
             c_text := sanitized;
             original := original |} ]
    else comments
  else comments.

(** The [while (stack.length > 0)] loop; the top of the stack is the head
    of the list. *)
Fixpoint traverse (fuel : nat) (languageId : string) (minJapaneseRatio : Q)
    (stack : list SyntaxNode) (comments : list CommentRange)
  : list CommentRange :=
  match fuel with
  | O => comments
  | S fuel' =>
      match stack with
      | [] => comments
      | node :: stack' =>
          traverse fuel' languageId minJapaneseRatio
            (children node ++ stack')
            (visit languageId minJapaneseRatio node comments)
      end
  end.

Fixpoint size (n : SyntaxNode) : nat :=
  let 'Node _ _ _ _ cs := n in
  S (fold_right (fun c k => (size c + k)%nat) O cs).

(** The module state: whether the parser has been created, and what
    loading the grammar of a given name gives. *)
Record TreeSitter := {
  parserInstance : bool;
  loadGrammar : string -> option Language
}.

Definition loadLanguage (ts : TreeSitter) (languageId : string)
  : option Language :=
  match languageGrammarMap languageId with
  | None => None
  | Some grammarName => loadGrammar ts grammarName
  end.

Definition treeSitterNotInitialized : string :=
  "Tree-sitter not initialized. Call initializeTreeSitter() first.".

Definition defaultMinJapaneseRatio : Q := 1 # 10.

Definition extractCommentsWithTreeSitter (ts : TreeSitter)
    (text : jsstring) (languageId : string) (minJapaneseRatio : Q)
  : result (list CommentRange) :=
  if negb (parserInstance ts) then Throw treeSitterNotInitialized
  else
    match loadLanguage ts languageId with
    | None => Ok []
    | Some language =>
        let rootNode := language text in
        Ok (traverse (size rootNode) languageId minJapaneseRatio
              [rootNode] [])
    end.

(** *** The two strategies without their loop state *)

(** The nodes of a tree in the order the traversal pops them. *)
Fixpoint preorder (n : SyntaxNode) : list SyntaxNode :=
  let 'Node _ _ _ _ cs := n in n :: flat_map preorder cs.

Definition sizes (stack : list SyntaxNode) : nat :=
  fold_right (fun c k => (size c + k)%nat) O stack.

(** A node is a candidate when it is a comment or a Python docstring. *)
Definition isCandidate (languageId : string) (node : SyntaxNode) : bool :=
  isCommentNode (n_type node) languageId
  || (String.eqb languageId "python" && isPythonDocstring node).

Definition rangeOfNode (languageId : string) (node : SyntaxNode)
  : CommentRange :=
  {| c_start := startIndex node;
     c_end := endIndex node;
     c_text := sanitizeComment (n_text node) languageId;
     original := n_text node |}.

Definition retainedNode (languageId : string) (minJapaneseRatio : Q)
    (node : SyntaxNode) : list CommentRange :=
  if isCandidate languageId node
     && atLeast
          (calculateJapaneseRatio (sanitizeComment (n_text node) languageId))
          minJapaneseRatio
  then [rangeOfNode languageId node]
  else [].

(** The matches of a pattern from [lastIndex] on, in order. *)
Fixpoint matches_from (fuel : nat) (pattern : Pattern) (text : jsstring)
    (lastIndex : Z) : list (Z * jsstring) :=
  match fuel with
  | O => []
  | S fuel' =>
      match exec pattern text lastIndex with
      | None => []
      | Some (index, original) =>
          (index, original)
            :: matches_from fuel' pattern text (index + strlen original)
      end
  end.

Definition rangeOfMatch (m : Z * jsstring) : CommentRange :=
  {| c_start := fst m;
     c_end := fst m + strlen (snd m);
     c_text := removeMarkers (snd m);
     original := snd m |}.

Definition retainedMatch (m : Z * jsstring) : list CommentRange :=
  if aboveTenth (calculateJapaneseRatio (removeMarkers (snd m)))
  then [rangeOfMatch m]
  else [].

(** A pattern whose marker is not empty: each of its matches has at least
    one character. *)
Definition wellFormed (pattern : Pattern) : Prop :=
  match pattern with
  | LinePattern marker => marker <> []
  | BlockPattern opening _ => opening <> []
  end.

Definition patternsOf (languageId : string) : list Pattern :=
  match patterns languageId with
  | Some langPatterns => langPatterns
  | None => []
  end.

End Extract.

(** ** wikipedia.ts: the summary cache *)

Module Wikipedia.

Inductive Status := success | not_found | error.

Record WikipediaCacheEntry := {
  summary : option jsstring;
  status : Status;
  timestamp : Z
}.

Definition CACHE_EXPIRY_MS : Z := 60 * 60 * 1000.

(** What [response.json()] gives: a rejection, or the [extract] field of
    the parsed body ([None] when the body has none). *)
Inductive JsonOutcome :=
| JsonRejected
| JsonData (extract : option jsstring).

(** What [fetch(url)] gives: a rejection (no response was received), or a
    response with its HTTP status and body. *)
Inductive FetchOutcome :=
| FetchRejected
| Response (httpStatus : Z) (body : JsonOutcome).

Definition ok (httpStatus : Z) : bool := in_range 200 299 httpStatus.

(** [encodeURIComponent] throws on a lone surrogate. *)
Definition encodable (term : jsstring) : bool :=
  forallb
    (fun ch =>
       match ch with
       | [c] => negb (isHighSurrogate c || isLowSurrogate c)
       | _ => true
       end)
    (chars term).

(** The module variable [cache] and a log of the terms requested from the
    network. *)
Record State := {
  cache : gmap (list Z) WikipediaCacheEntry;
  requests : list jsstring
}.

(** The surroundings of one call: the clock when the cache is consulted,
    the outcome of the request if one is made, and the clock when the
    result is stored. *)
Record Env := {
  nowAtLookup : Z;
  fetched : FetchOutcome;
  nowAtStore : Z
}.

Definition cacheSet (term : jsstring) (entry : WikipediaCacheEntry)
    (st : State) : State :=
  {| cache := <[term := entry]> (cache st); requests := requests st |}.

Definition request (term : jsstring) (st : State) : State :=
  {| cache := cache st; requests := requests st ++ [term] |}.

(** [data.extract || null]. *)
Definition extractOrNull (extract : option jsstring) : option jsstring :=
  match extract with
  | Some [] => None
  | Some s => Some s
  | None => None
  end.

Definition fresh (env : Env) (cached : WikipediaCacheEntry) : bool :=
  nowAtLookup env - timestamp cached <? CACHE_EXPIRY_MS.

Definition fetchWikipediaSummary (env : Env) (term : jsstring) (st : State)
  : option jsstring * State :=
  let miss :=
    if negb (encodable term) then (None, st)
    else
      let st := request term st in
      match fetched env with
      | FetchRejected => (None, st)
      | Response httpStatus body =>
          if httpStatus =? 404 then
            (None,
             cacheSet term
               {| summary := None; status := not_found;
                  timestamp := nowAtStore env |} st)
          else if negb (ok httpStatus) then
            (None,
             cacheSet term
               {| summary := None; status := error;
                  timestamp := nowAtStore env |} st)
          else
            match body with
            | JsonRejected => (None, st)
            | JsonData extract =>
                let summary := extractOrNull extract in
                (summary,
                 cacheSet term
                   {| summary := summary; status := success;
                      timestamp := nowAtStore env |} st)
            end
      end in
  match cache st !! term with
  | Some cached => if fresh env cached then (summary cached, st) else miss
  | None => miss
  end.

Definition clearCache (st : State) : State :=
  {| cache := ∅; requests := requests st |}.

(** No entry of the term is young enough to be served. *)
Definition missed (env : Env) (term : jsstring) (st : State) : Prop :=
  match cache st !! term with
  | Some cached => fresh env cached = false
  | None => True
  end.

(** A lookup of the term the network answers with a 404. *)
Definition catNotFound : Env :=
  {| nowAtLookup := 1000; fetched := Response 404 JsonRejected;
     nowAtStore := 1200 |}.

Definition initialState : State := {| cache := ∅; requests := [] |}.

End Wikipedia.

(** ** The rules as the specification words them

    Each definition gives the diagnostics of one rule as a function of the
    sentences, without loop state; the properties below relate them to the
    loops of grammar.ts. *)

Module Rules.

Import Analyzer Grammar.

Definition defaultConfig : WakameConfig :=
  {| rules :=
       {| commaLimit := true; commaLimitMax := 3;
          adversativeGa := true; adversativeGaMax := 1;
          duplicateParticle := true; adjacentParticles := true;
          conjunctionRepeat := true; raDropping := true |} |}.

(** The pairs of immediately successive elements of a list, in order. *)
Fixpoint adjacent_pairs {A : Type} (l : list A) : list (A * A) :=
  match l with
  | a :: (b :: _) as r => (a, b) :: adjacent_pairs r
  | _ => []
  end.

Definition wholeSentence (text : jsstring) (sentence : Sentence)
    (msg : Message) (code : string) : DiagnosticInfo :=
  mkDiagnostic text (start sentence) (end_ sentence) msg code.

(** From the first token of a pair to the end of the second. *)
Definition spanning (text : jsstring) (first second : Token)
    (msg : Message) (code : string) : DiagnosticInfo :=
  mkDiagnostic text (offset first) (offset second + strlen (surface second))
    msg code.

(** comma-limit: one diagnostic over the whole sentence when the sentence
    text has more commas than the limit. *)
Definition commaLimit_of (text : jsstring) (limit : Z) (sentence : Sentence)
  : list DiagnosticInfo :=
  if limit <? countCommas (Analyzer.text sentence)
  then [wholeSentence text sentence
          (CommaLimitMessage limit (countCommas (Analyzer.text sentence)))
          "comma-limit"]
  else [].

(** adversative-ga: one diagnostic over the whole sentence when it has more
    adversative [ga] tokens than the maximum. *)
Definition countAdversativeGa (tokens : list Token) : Z :=
  Z.of_nat (List.length (List.filter isAdversativeGa tokens)).

Definition adversativeGa_of (text : jsstring) (maxCount : Z)
    (sentence : Sentence) : list DiagnosticInfo :=
  if maxCount <? countAdversativeGa (tokens sentence)
  then [wholeSentence text sentence
          (AdversativeGaMessage maxCount (countAdversativeGa (tokens sentence)))
          "adversative-ga"]
  else [].

(** duplicate-particle: one diagnostic for every two successive tokens of
    the particle-only subsequence with the same surface and the same key. *)
Definition sameParticle (first second : Token) : bool :=
  str_eqb (surface second) (surface first)
  && str_eqb (getParticleKey second) (getParticleKey first).

Definition duplicate_of_pair (text : jsstring) (p : Token * Token)
  : list DiagnosticInfo :=
  let '(first, second) := p in
  if sameParticle first second
  then [spanning text first second
          (DuplicateParticleMessage (surface second)) "duplicate-particle"]
  else [].

Definition duplicateParticle_of (text : jsstring) (sentence : Sentence)
  : list DiagnosticInfo :=
  flat_map (duplicate_of_pair text)
    (adjacent_pairs (List.filter isParticle (tokens sentence))).

(** The same with the key taken as the pair (POS, POS detail 1). *)
Definition sameSurfaceAndKey (first second : Token) : bool :=
  str_eqb (surface second) (surface first)
  && str_eqb (pos second) (pos first)
  && str_eqb (posDetail1 second) (posDetail1 first).

Definition duplicates_of (text : jsstring) (sentence : Sentence)
  : list DiagnosticInfo :=
  flat_map
    (fun '(first, second) =>
       if sameSurfaceAndKey first second
       then [spanning text first second
               (DuplicateParticleMessage (surface second))
               "duplicate-particle"]
       else [])
    (adjacent_pairs (List.filter isParticle (tokens sentence))).

(** adjacent-particles: one diagnostic for every two successive tokens of
    the sentence that are both particles, with the same key, the second
    starting where the first ends. *)
Definition adjacent_of_pair (text : jsstring) (p : Token * Token)
  : list DiagnosticInfo :=
  let '(first, second) := p in
  if isParticle first && isParticle second
     && str_eqb (getParticleKey second) (getParticleKey first)
     && (offset second =? offset first + strlen (surface first))
  then [spanning text first second AdjacentParticlesMessage
          "adjacent-particles"]
  else [].

Definition adjacentParticles_of (text : jsstring) (sentence : Sentence)
  : list DiagnosticInfo :=
  flat_map (adjacent_of_pair text) (adjacent_pairs (tokens sentence)).

(** conjunction-repeat: over the conjunctions of the whole document, one
    diagnostic for every two successive ones with the same surface and no
    newline of the text between them. *)
Definition conjunction_of_pair (text : jsstring) (p : Token * Token)
  : list DiagnosticInfo :=
  let '(first, second) := p in
  if str_eqb (surface second) (surface first)
     && negb (separatedByNewline text first second)
  then [spanning text first second
          (ConjunctionRepeatMessage (surface second)) "conjunction-repeat"]
  else [].

Definition conjunctionRepeat_of (text : jsstring) (sentences : list Sentence)
  : list DiagnosticInfo :=
  flat_map (conjunction_of_pair text)
    (adjacent_pairs (List.filter isConjunction (flat_map tokens sentences))).

(** ra-dropping: per sentence, first one diagnostic on every verb token whose
    dictionary form is one of the two contracted forms, then one for every
    stem-form one-step verb immediately followed by the suffix. *)
Definition raSingle_of (text : jsstring) (token : Token) : DiagnosticInfo :=
  mkDiagnostic text (offset token) (offset token + strlen (surface token))
    RaDroppingMessage "ra-dropping".

Definition raPair_of (text : jsstring) (p : Token * Token)
  : list DiagnosticInfo :=
  let '(first, second) := p in
  if isTargetVerb first && isRaWord second
  then [spanning text first second RaDroppingMessage "ra-dropping"]
  else [].

Definition raDropping_of (text : jsstring) (sentence : Sentence)
  : list DiagnosticInfo :=
  map (raSingle_of text) (List.filter isSpecialRaCase (tokens sentence))
  ++ flat_map (raPair_of text) (adjacent_pairs (tokens sentence)).

(** The ra-dropping rule with its first case as the specification words it:
    any token whose dictionary form is one of the two contracted forms,
    whatever its part of speech. *)
Definition claimedSpecialRaCase (token : Token) : bool :=
  str_eqb (baseForm token) (js "来れる")
  || str_eqb (baseForm token) (js "見れる").

Definition raDropping_claimed (text : jsstring) (sentence : Sentence)
  : list DiagnosticInfo :=
  map (raSingle_of text) (List.filter claimedSpecialRaCase (tokens sentence))
  ++ flat_map (raPair_of text) (adjacent_pairs (tokens sentence)).

(** The token that precedes, if any, put in front of the tokens to come. *)
Definition preceded (prev : option Token) (tokens : list Token)
  : list Token :=
  match prev with
  | Some p => p :: tokens
  | None => tokens
  end.

(** What the loop states keep between two iterations. *)
Definition dup_inv (st : DupState) : Prop :=
  1 <= streak st
  /\ match lastToken st with
     | Some p => lastSurface st = surface p /\ lastKey st = getParticleKey p
     | None => True
     end.

Definition conj_inv (st : ConjState) : Prop :=
  1 <= conj_streak st
  /\ match conj_lastToken st with
     | Some p => conj_lastSurface st = surface p
     | None => True
     end.

(** [prev] is the token the loop has just left. *)
Definition adj_inv (prev : option Token) (st : AdjState) : Prop :=
  1 <= adj_streak st
  /\ match prev with
     | Some p =>
         prevIsParticle st = isParticle p
         /\ (isParticle p = true ->
             prevToken st = Some p /\ prevKey st = getParticleKey p)
     | None => prevIsParticle st = false
     end.

End Rules.

(** ** Scenarios of the specification *)

Module Scenario.

Import Analyzer Grammar.

(** A record of the backend, given by its surface, part of speech, first
    detail, conjugation type, conjugation form and dictionary form. *)
Definition morpheme (surface pos detail1 ctype cform base : string)
  : KuromojiToken :=
  {| surface_form := js surface;
     k_pos := Some (js pos);
     pos_detail_1 := Some (js detail1);
     pos_detail_2 := None;
     pos_detail_3 := None;
     conjugated_type := Some (js ctype);
     conjugated_form := Some (js cform);
     basic_form := Some (js base);
     k_reading := None;
     k_pronunciation := None |}.

(** Tokens and sentences of a text for a given output of the backend. *)
Definition sentencesOf (text : jsstring) (backend : list KuromojiToken)
  : list Sentence :=
  splitSentences text (tokenize_tokens text backend).

Definition commaText : jsstring := js "これは、とても、すごく、非常に、良い。".

Definition commaMorphemes : list KuromojiToken :=
  [ morpheme "これ" "名詞" "代名詞" "*" "*" "これ";
    morpheme "は" "助詞" "係助詞" "*" "*" "は";
    morpheme "、" "記号" "読点" "*" "*" "、";
    morpheme "とても" "副詞" "助詞類接続" "*" "*" "とても";
    morpheme "、" "記号" "読点" "*" "*" "、";
    morpheme "すごく" "形容詞" "自立" "形容詞・アウオ段" "連用テ接続" "すごい";
    morpheme "、" "記号" "読点" "*" "*" "、";
    morpheme "非常" "名詞" "形容動詞語幹" "*" "*" "非常";
    morpheme "に" "助詞" "副詞化" "*" "*" "に";
    morpheme "、" "記号" "読点" "*" "*" "、";
    morpheme "良い" "形容詞" "自立" "形容詞・アウオ段" "基本形" "良い";
    morpheme "。" "記号" "句点" "*" "*" "。" ].

Definition wo : KuromojiToken := morpheme "を" "助詞" "格助詞" "*" "*" "を".

Definition twoWoText : jsstring := js "本をを読む。".
Definition twoWoMorphemes : list KuromojiToken :=
  [ morpheme "本" "名詞" "一般" "*" "*" "本"; wo; wo;
    morpheme "読む" "動詞" "自立" "五段・マ行" "基本形" "読む";
    morpheme "。" "記号" "句点" "*" "*" "。" ].

(** A sentence made of the two particles alone. *)
Definition woRun : Sentence :=
  {| text := js "をを"; start := 0; end_ := 2;
     tokens := tokenize_tokens (js "をを") [wo; wo] |}.

Definition threeWoText : jsstring := js "本ををを読む。".
Definition threeWoMorphemes : list KuromojiToken :=
  [ morpheme "本" "名詞" "一般" "*" "*" "本"; wo; wo; wo;
    morpheme "読む" "動詞" "自立" "五段・マ行" "基本形" "読む";
    morpheme "。" "記号" "句点" "*" "*" "。" ].

Definition miReruText : jsstring := js "映画が見れる。".
Definition miReruMorphemes : list KuromojiToken :=
  [ morpheme "映画" "名詞" "一般" "*" "*" "映画";
    morpheme "が" "助詞" "格助詞" "*" "*" "が";
    morpheme "見" "動詞" "自立" "一段" "未然形" "見る";
    morpheme "れる" "動詞" "接尾" "一段" "基本形" "れる";
    morpheme "。" "記号" "句点" "*" "*" "。" ].


(** A backend that returns two surfaces the text does not have and then
    an empty surface. *)
Definition strayBackend : Tokenizer :=
  fun _ =>
    [ morpheme "xyz" "名詞" "一般" "*" "*" "xyz";
      morpheme "qqq" "名詞" "一般" "*" "*" "qqq";
      morpheme "" "記号" "空白" "*" "*" "" ].

Definition readyWith (tk : Tokenizer) : State :=
  snd (initializeTokenizer (Ok tk) initialState).

(** A line comment alone in a file, and a parser that gives the tree of
    such a file: a program whose only child is the comment. *)
Definition tenthComment : jsstring := js "// あabcdefghi".
Definition fifthComment : jsstring := js "// あabcd".
Definition spacedComment : jsstring := js "// あ ".

Definition commentOnly : Extract.Language :=
  fun text =>
    Extract.Node (js "program") text 0 (strlen text)
      [Extract.Node (js "comment") text 0 (strlen text) []].

Definition treeSitter : Extract.TreeSitter :=
  {| Extract.parserInstance := true;
     Extract.loadGrammar := fun _ => Some commentOnly |}.

(** A noun whose dictionary form is one of the two contracted forms. *)
Definition nounKoreruText : jsstring := js "来れる".
Definition nounKoreruMorphemes : list KuromojiToken :=
  [ morpheme "来れる" "名詞" "固有名詞" "*" "*" "来れる" ].

Definition koreruText : jsstring := js "明日は来れる。".
Definition koreruMorphemes : list KuromojiToken :=
  [ morpheme "明日" "名詞" "副詞可能" "*" "*" "明日";
    morpheme "は" "助詞" "係助詞" "*" "*" "は";
    morpheme "来れる" "動詞" "自立" "一段" "基本形" "来れる";
    morpheme "。" "記号" "句点" "*" "*" "。" ].

End Scenario.

(** ** wikipedia.ts: the statistics of the cache *)

Module Cache.

Import Wikipedia.

Record CacheStats := { c_size : Z; hits : Z; misses : Z }.

Definition getCacheStats (st : State) : CacheStats :=
  {| c_size := Z.of_nat (size (cache st)); hits := 0; misses := 0 |}.

End Cache.

(** ** Shapes the properties speak of *)

Module Shape.

Import Analyzer.

(** A sentence that ends with a terminator and has none before it. *)
Definition terminated (s : Sentence) : Prop :=
  exists body lastToken,
    tokens s = body ++ [lastToken]
    /\ isSentenceEnd lastToken = true
    /\ Forall (fun t => isSentenceEnd t = false) body.

(** A sentence with tokens and no terminator. *)
Definition unterminated (s : Sentence) : Prop :=
  tokens s <> []
  /\ Forall (fun t => isSentenceEnd t = false) (tokens s).

(** Every sentence is terminated, but the last one may be unterminated. *)
Fixpoint shaped (ss : list Sentence) : Prop :=
  match ss with
  | [] => True
  | s :: rest =>
      match rest with
      | [] => terminated s \/ unterminated s
      | _ :: _ => terminated s /\ shaped rest
      end
  end.

(** 1 when the tokens end with a token that is not a terminator. *)
Definition trailing (tokens : list Token) : nat :=
  match last tokens with
  | Some t => if isSentenceEnd t then 0 else 1
  | None => 0
  end.

(** The slice of the text at the token is the surface of the token, and
    lies in the text. *)
Definition readsBack (text : jsstring) (t : Token) : Prop :=
  0 <= offset t
  /\ offset t + strlen (surface t) <= strlen text
  /\ slice text (offset t) (offset t + strlen (surface t)) = surface t.

(** The states a sequence of calls leads to from [st0]. *)
Inductive reachableFrom (st0 : State) : State -> Prop :=
| from_here : reachableFrom st0 st0
| from_initialize build st :
    reachableFrom st0 st ->
    reachableFrom st0 (snd (initializeTokenizer build st))
| from_tokenize text st :
    reachableFrom st0 st -> reachableFrom st0 (snd (tokenize st text)).

End Shape.

(** ** server.ts: what the server does with the analysis *)

Module Server.

Import Analyzer Grammar.

(** The codes of the six rules. *)
Definition ruleCodes : list string :=
  ["comma-limit"; "adversative-ga"; "duplicate-particle";
   "adjacent-particles"; "conjunction-repeat"; "ra-dropping"]%string.

(** [diagnosticInfos.filter((d) => d.severity <= config.warningMinSeverity)]. *)
Definition filterBySeverity (warningMinSeverity : Z)
    (diagnosticInfos : list DiagnosticInfo) : list DiagnosticInfo :=
  List.filter (fun d => severity d <=? warningMinSeverity) diagnosticInfos.

(** All the tokens of the sentences in one sentence. *)
Definition merged (sentences : list Sentence) : Sentence :=
  {| text := []; start := 0; end_ := 0;
     tokens := flat_map tokens sentences |}.

(** The number of newline code units of a string. *)
Definition countNewlines (s : jsstring) : Z :=
  strlen (List.filter (fun c => c =? 0x0A) s).

End Server.

(** ** Shapes of the extracted ranges *)

Module Ranges.

Import Extract.

(** The range lies in the text, is not empty, and the slice of the text it
    delimits is its [original]. *)
Definition indexes (text : jsstring) (r : CommentRange) : Prop :=
  0 <= c_start r
  /\ c_start r < c_end r
  /\ c_end r <= strlen text
  /\ slice text (c_start r) (c_end r) = original r.

(** [a] is a run of consecutive code units of [b]. *)
Definition within (a b : jsstring) : Prop :=
  exists pre post, b = pre ++ a ++ post.

(** No white space at the start nor at the end. *)
Definition trimmed (s : jsstring) : Prop :=
  (forall c, head s = Some c -> isSpace c = false)
  /\ (forall c, last s = Some c -> isSpace c = false).

End Ranges.

(** * Properties *)

(** ** The string primitives on small inputs *)

Section Primitives.

Example js_decodes_kanji : js "助詞" = [0x52A9; 0x8A5E].
Proof. reflexivity. Qed.

Example js_decodes_astral : js "a𠮷" = [0x61; 0xD842; 0xDFB7].
Proof. reflexivity. Qed.

Example chars_pairs_surrogates :
  chars (js "a𠮷b") = [[0x61]; [0xD842; 0xDFB7]; [0x62]].
Proof. reflexivity. Qed.

Example indexOf_from_position : indexOf (js "abcabc") (js "bc") 2 = 4.
Proof. reflexivity. Qed.

Example indexOf_absent : indexOf (js "abc") (js "x") 0 = -1.
Proof. reflexivity. Qed.

Example indexOf_empty_past_end : indexOf (js "abc") [] 10 = 3.
Proof. reflexivity. Qed.

Example slice_negative_end : slice (js "abcdef") 1 (-1) = js "bcde".
Proof. reflexivity. Qed.

Example slice_crossed : slice (js "abcdef") 4 2 = [].
Proof. reflexivity. Qed.

Example trim_ideographic_space : trim (js "  a b 　") = js "a b".
Proof. reflexivity. Qed.

Example byteLength_mixed : byteLength (js "a猫𠮷") = 8.
Proof. reflexivity. Qed.

Example offsetToPosition_second_line :
  Grammar.offsetToPosition (js "猫
犬。") 2 = {| Grammar.line := 1; Grammar.character := 0 |}.
Proof. reflexivity. Qed.

Example removeMarkers_block :
  Extract.removeMarkers (js "/* 猫 */") = js "猫".
Proof. reflexivity. Qed.

Example sanitizeComment_block :
  Extract.sanitizeComment (js "/**
 * あい
 * b
 */") "javascript" = js "あい
b".
Proof. reflexivity. Qed.

End Primitives.

(** ** Japanese ratio *)

Section JapaneseRatio.

Lemma strlen_nonneg (s : jsstring) : 0 <= strlen s.
Proof. unfold strlen. lia. Qed.

Lemma strlen_filter_le (p : Z -> bool) (s : jsstring) :
  strlen (List.filter p s) <= strlen s.
Proof.
  unfold strlen. pose proof (List.filter_length_le p s). lia.
Qed.

(** C10: for every string the Japanese ratio is a rational between 0 and 1
    inclusive, and it is exactly 0 on the empty string. *)
Theorem calculateJapaneseRatio_bounds (text : jsstring) :
  (0 <= Analyzer.calculateJapaneseRatio text)%Q
  /\ (Analyzer.calculateJapaneseRatio text <= 1)%Q
  /\ Analyzer.calculateJapaneseRatio [] = 0%Q.
Proof.
  split; [|split]; [| |reflexivity].
  - unfold Analyzer.calculateJapaneseRatio.
    destruct (strlen text =? 0) eqn:E; [apply Qle_refl|].
    apply Z.eqb_neq in E. pose proof (strlen_nonneg text).
    apply Qle_shift_div_l.
    + rewrite <- (Zlt_Qlt 0). lia.
    + rewrite Qmult_0_l. rewrite <- (Zle_Qle 0). apply strlen_nonneg.
  - unfold Analyzer.calculateJapaneseRatio.
    destruct (strlen text =? 0) eqn:E; [discriminate|].
    apply Z.eqb_neq in E. pose proof (strlen_nonneg text).
    apply Qle_shift_div_r.
    + rewrite <- (Zlt_Qlt 0). lia.
    + rewrite Qmult_1_l. rewrite <- Zle_Qle. apply strlen_filter_le.
Qed.

End JapaneseRatio.

(** ** Readiness of the tokenizer *)

Section Readiness.

Import Analyzer.

Lemma reachable_settled (st : State) : reachable st -> settled st.
Proof.
  induction 1 as [|build st _ IH|text st _ IH]; intros tk.
  - discriminate.
  - unfold initializeTokenizer.
    destruct (tokenizer st) eqn:Etk; simpl.
    + apply IH.
    + destruct (initPromise st) as [[p|err]|] eqn:Ep; simpl.
      * apply IH.
      * apply IH.
      * destruct build; simpl; congruence.
  - unfold tokenize. destruct (tokenizer st) eqn:Etk; simpl.
    + intros Hp. rewrite <- Etk. now apply IH.
    + apply IH.
Qed.

Lemma initialize_ok_ready (build : result Tokenizer) (st st' : State) :
  settled st ->
  initializeTokenizer build st = (Ok tt, st') ->
  isTokenizerReady st' = true.
Proof.
  unfold initializeTokenizer, isTokenizerReady. intros Hs.
  destruct (tokenizer st) eqn:Etk.
  - intros [= <-]. now rewrite Etk.
  - destruct (initPromise st) as [[p|err]|] eqn:Ep.
    + specialize (Hs p Ep). congruence.
    + discriminate.
    + destruct build; [|discriminate]. now intros [= <-].
Qed.

(** C9: while the tokenizer is not ready, [tokenize] (and [analyze])
    fails with the initialization error, hands nothing to the backend and
    leaves the state as it was; once [initializeTokenizer] has succeeded,
    the tokenizer is ready and [tokenize] returns tokens. *)
Theorem tokenize_needs_initialization :
  (forall st text,
      isTokenizerReady st = false ->
      tokenize st text = (Throw notInitialized, st)
      /\ analyze st text = (Throw notInitialized, st))
  /\ (forall st build st' text,
        reachable st ->
        initializeTokenizer build st = (Ok tt, st') ->
        isTokenizerReady st' = true
        /\ exists tokens, fst (tokenize st' text) = Ok tokens).
Proof.
  split.
  - intros st text Hn. unfold isTokenizerReady in Hn.
    unfold analyze, tokenize.
    destruct (tokenizer st); [discriminate|]. split; reflexivity.
  - intros st build st' text Hr Hi.
    pose proof (initialize_ok_ready build st st' (reachable_settled st Hr) Hi)
      as Hready.
    split; [exact Hready|].
    unfold isTokenizerReady in Hready. unfold tokenize.
    destruct (tokenizer st') as [tk|]; [|discriminate].
    eexists. reflexivity.
Qed.

Lemma tokenize_needs_initialization_witness :
  fst (tokenize initialState (js "猫。")) = Throw notInitialized
  /\ exists tokens,
      fst (tokenize (snd (initializeTokenizer (Ok unitTokenizer) initialState))
             (js "猫。")) = Ok tokens.
Proof.
  destruct tokenize_needs_initialization as [Hbefore Hafter].
  split.
  - destruct (Hbefore initialState (js "猫。")) as [-> _]; reflexivity.
  - apply (Hafter initialState (Ok unitTokenizer) _ (js "猫。")).
    + apply reachable_initial.
    + reflexivity.
Defined.

End Readiness.

(** ** The Wikipedia cache *)

Section WikipediaCache.

Import Wikipedia.

Lemma fetch_hit (env : Env) (term : jsstring) (st : State)
    (cached : WikipediaCacheEntry) :
  cache st !! term = Some cached ->
  fresh env cached = true ->
  fetchWikipediaSummary env term st = (summary cached, st).
Proof.
  intros Hc Hf. unfold fetchWikipediaSummary. now rewrite Hc, Hf.
Qed.

Lemma fetch_miss (env : Env) (term : jsstring) (st : State) :
  missed env term st ->
  encodable term = true ->
  fetchWikipediaSummary env term st =
    match fetched env with
    | FetchRejected => (None, request term st)
    | Response httpStatus body =>
        if httpStatus =? 404 then
          (None,
           cacheSet term
             {| summary := None; status := not_found;
                timestamp := nowAtStore env |} (request term st))
        else if negb (ok httpStatus) then
          (None,
           cacheSet term
             {| summary := None; status := error;
                timestamp := nowAtStore env |} (request term st))
        else
          match body with
          | JsonRejected => (None, request term st)
          | JsonData extract =>
              (extractOrNull extract,
               cacheSet term
                 {| summary := extractOrNull extract; status := success;
                    timestamp := nowAtStore env |} (request term st))
          end
    end.
Proof.
  unfold missed, fetchWikipediaSummary. intros Hm He. rewrite He. simpl.
  destruct (cache st !! term) as [cached|]; [rewrite Hm|]; reflexivity.
Qed.

Lemma fresh_later (env1 env2 : Env) (cached : WikipediaCacheEntry) :
  nowAtLookup env1 <= nowAtLookup env2 ->
  fresh env1 cached = false -> fresh env2 cached = false.
Proof. unfold fresh. rewrite !Z.ltb_ge. lia. Qed.

(** C8: a 404 is cached as [not_found] and any other non-2xx response as
    [error], each with a null summary; a lookup that finds an entry younger
    than one hour returns its summary and leaves the state, hence the log
    of network requests, as it was; a request that fails before any response
    returns null and leaves the cache as it was, so that a later lookup of
    the term asks the network again. *)
Theorem cache_contract (term : jsstring) (st : State) (env : Env) :
  encodable term = true ->
  missed env term st ->
  let st1 := snd (fetchWikipediaSummary env term st) in
  (forall httpStatus body,
      fetched env = Response httpStatus body ->
      ok httpStatus = false ->
      fst (fetchWikipediaSummary env term st) = None
      /\ cache st1 !! term =
           Some {| summary := None;
                   status := if httpStatus =? 404 then not_found else error;
                   timestamp := nowAtStore env |}
      /\ requests st1 = requests st ++ [term])
  /\ (forall cached later,
        cache st1 !! term = Some cached ->
        nowAtLookup later - timestamp cached < CACHE_EXPIRY_MS ->
        fetchWikipediaSummary later term st1 = (summary cached, st1))
  /\ (fetched env = FetchRejected ->
        fst (fetchWikipediaSummary env term st) = None
        /\ cache st1 = cache st
        /\ forall later,
            nowAtLookup env <= nowAtLookup later ->
            requests (snd (fetchWikipediaSummary later term st1)) =
              requests st1 ++ [term]).
Proof.
  intros He Hm st1. subst st1. rewrite (fetch_miss env term st Hm He).
  split; [|split].
  - intros httpStatus body Hf Hok. rewrite Hf, Hok. simpl.
    destruct (httpStatus =? 404); simpl;
      rewrite lookup_insert_eq; repeat split; reflexivity.
  - intros cached later Hc Hlt. apply fetch_hit; [exact Hc|].
    unfold fresh. now apply Z.ltb_lt.
  - intros Hf. rewrite Hf. simpl. repeat split.
    intros later Hle.
    assert (Hm' : missed later term (request term st)).
    { unfold missed in *. simpl.
      destruct (cache st !! term) as [cached|]; [|exact I].
      now apply (fresh_later env later). }
    rewrite (fetch_miss later term _ Hm' He).
    destruct (fetched later) as [|httpStatus body]; [reflexivity|].
    destruct (httpStatus =? 404); [reflexivity|].
    destruct (negb (ok httpStatus)); [reflexivity|].
    destruct body; reflexivity.
Qed.

Lemma cache_contract_witness :
  let st1 := snd (fetchWikipediaSummary catNotFound (js "猫") initialState) in
  cache st1 !! js "猫" =
    Some {| summary := None; status := not_found; timestamp := 1200 |}
  /\ requests st1 = [js "猫"].
Proof.
  destruct (cache_contract (js "猫") initialState catNotFound) as (H404 & _ & _).
  - reflexivity.
  - exact I.
  - destruct (H404 404 JsonRejected) as (_ & Hc & Hr).
    + reflexivity.
    + reflexivity.
    + split; [exact Hc | exact Hr].
Defined.

End WikipediaCache.

(** ** The loops of the rules, without their state *)

Section RuleLoops.

Import Analyzer Grammar Rules.

Variable text : jsstring.

Lemma fold_left_emit {A B : Type} (step : list B -> A -> list B)
    (emit : A -> list B) :
  (forall acc x, step acc x = acc ++ emit x) ->
  forall l acc, fold_left step l acc = acc ++ flat_map emit l.
Proof.
  intros Hstep l. induction l as [|x l IH]; intros acc; simpl.
  - now rewrite app_nil_r.
  - rewrite IH, Hstep, <- app_assoc. reflexivity.
Qed.

Lemma commaLimit_sentence_emit (limit : Z) acc sentence :
  commaLimit_sentence text limit acc sentence =
    acc ++ commaLimit_of text limit sentence.
Proof.
  unfold commaLimit_sentence, commaLimit_of, wholeSentence.
  rewrite Z.gtb_ltb.
  destruct (limit <? countCommas (Analyzer.text sentence));
    [reflexivity | now rewrite app_nil_r].
Qed.

Lemma checkCommaLimit_loop sentences config :
  checkCommaLimit text sentences config =
    if commaLimit (rules config)
    then flat_map (commaLimit_of text (commaLimitMax (rules config))) sentences
    else [].
Proof.
  unfold checkCommaLimit. destruct (commaLimit (rules config)); simpl;
    [|reflexivity].
  now rewrite (fold_left_emit _ _ (commaLimit_sentence_emit _)).
Qed.

Lemma adversativeGa_count_fold tokens count :
  fold_left adversativeGa_count tokens count =
    count + countAdversativeGa tokens.
Proof.
  unfold countAdversativeGa.
  revert count. induction tokens as [|t tokens IH]; intros count; simpl.
  - lia.
  - rewrite IH. unfold adversativeGa_count.
    destruct (isAdversativeGa t); simpl List.length; lia.
Qed.

Lemma adversativeGa_sentence_emit (maxCount : Z) acc sentence :
  adversativeGa_sentence text maxCount acc sentence =
    acc ++ adversativeGa_of text maxCount sentence.
Proof.
  unfold adversativeGa_sentence, adversativeGa_of, wholeSentence.
  rewrite adversativeGa_count_fold, Z.add_0_l, Z.gtb_ltb.
  destruct (maxCount <? countAdversativeGa (tokens sentence));
    [reflexivity | now rewrite app_nil_r].
Qed.

Lemma checkAdversativeGa_loop sentences config :
  checkAdversativeGa text sentences config =
    if adversativeGa (rules config)
    then flat_map (adversativeGa_of text (adversativeGaMax (rules config)))
           sentences
    else [].
Proof.
  unfold checkAdversativeGa. destruct (adversativeGa (rules config)); simpl;
    [|reflexivity].
  now rewrite (fold_left_emit _ _ (adversativeGa_sentence_emit _)).
Qed.

Lemma adjacent_pairs_preceded (prev : option Token) t tokens :
  adjacent_pairs (preceded prev (t :: tokens)) =
    match prev with
    | Some p => [(p, t)]
    | None => []
    end ++ adjacent_pairs (t :: tokens).
Proof. destruct prev; reflexivity. Qed.

Lemma dup_token_fold tokens st :
  dup_inv st ->
  dup_diagnostics (fold_left (dup_token text) tokens st) =
    dup_diagnostics st ++
      flat_map (duplicate_of_pair text)
        (adjacent_pairs
           (preceded (lastToken st) (List.filter isParticle tokens))).
Proof.
  revert st. induction tokens as [|t tokens IH]; intros st [Hs Hl].
  - simpl. destruct (lastToken st); simpl; now rewrite app_nil_r.
  - simpl fold_left. simpl List.filter. unfold dup_token at 2.
    destruct (isParticle t) eqn:Ep; simpl negb; cbv iota.
    + rewrite adjacent_pairs_preceded, flat_map_app, app_assoc.
      destruct (lastToken st) as [p|] eqn:El.
      * destruct Hl as [-> ->]. simpl flat_map. rewrite app_nil_r.
        unfold duplicate_of_pair, sameParticle, spanning.
        destruct (str_eqb (surface t) (surface p)
                  && str_eqb (getParticleKey t) (getParticleKey p)).
        -- assert (Hgt : (streak st + 1 >? 1) = true) by (apply Z.gtb_lt; lia).
           rewrite Hgt. rewrite IH; [reflexivity|]. split; simpl; [lia|auto].
        -- rewrite IH; [simpl; now rewrite app_nil_r|].
           split; simpl; [lia|auto].
      * rewrite IH; [simpl; now rewrite app_nil_r|].
        split; simpl; [lia|auto].
    + apply IH. now split.
Qed.

Lemma dup_sentence_emit acc sentence :
  dup_sentence text acc sentence = acc ++ duplicateParticle_of text sentence.
Proof.
  unfold dup_sentence, duplicateParticle_of.
  rewrite dup_token_fold; [reflexivity|]. split; simpl; [lia|exact I].
Qed.

Lemma checkDuplicateParticle_loop sentences config :
  checkDuplicateParticle text sentences config =
    if duplicateParticle (rules config)
    then flat_map (duplicateParticle_of text) sentences
    else [].
Proof.
  unfold checkDuplicateParticle.
  destruct (duplicateParticle (rules config)); simpl; [|reflexivity].
  now rewrite (fold_left_emit _ _ dup_sentence_emit).
Qed.

Lemma conj_token_fold tokens st :
  conj_inv st ->
  conj_diagnostics (fold_left (conj_token text) tokens st) =
    conj_diagnostics st ++
      flat_map (conjunction_of_pair text)
        (adjacent_pairs
           (preceded (conj_lastToken st) (List.filter isConjunction tokens))).
Proof.
  revert st. induction tokens as [|t tokens IH]; intros st [Hs Hl].
  - simpl. destruct (conj_lastToken st); simpl; now rewrite app_nil_r.
  - simpl fold_left. simpl List.filter. unfold conj_token at 2.
    destruct (isConjunction t) eqn:Ep; simpl negb; cbv iota.
    + rewrite adjacent_pairs_preceded, flat_map_app, app_assoc.
      destruct (conj_lastToken st) as [p|] eqn:El.
      * rewrite Hl. simpl flat_map. rewrite app_nil_r.
        unfold conjunction_of_pair, spanning.
        destruct (str_eqb (surface t) (surface p)
                  && negb (separatedByNewline text p t)).
        -- assert (Hgt : (conj_streak st + 1 >? 1) = true)
             by (apply Z.gtb_lt; lia).
           rewrite Hgt. rewrite IH; [reflexivity|]. split; simpl; [lia|auto].
        -- rewrite IH; [simpl; now rewrite app_nil_r|].
           split; simpl; [lia|auto].
      * rewrite IH; [simpl; now rewrite app_nil_r|].
        split; simpl; [lia|auto].
    + apply IH. now split.
Qed.

Lemma allTokens_fold (sentences : list Sentence) (all : list Token) :
  fold_left (fun all sentence => all ++ tokens sentence) sentences all =
    all ++ flat_map tokens sentences.
Proof. now apply fold_left_emit. Qed.

Lemma checkConjunctionRepeat_loop sentences config :
  checkConjunctionRepeat text sentences config =
    if conjunctionRepeat (rules config)
    then conjunctionRepeat_of text sentences
    else [].
Proof.
  unfold checkConjunctionRepeat, conjunctionRepeat_of.
  destruct (conjunctionRepeat (rules config)); simpl; [|reflexivity].
  rewrite allTokens_fold, conj_token_fold; [reflexivity|].
  split; simpl; [lia|exact I].
Qed.

Lemma adj_token_fold tokens prev st :
  adj_inv prev st ->
  adj_diagnostics (fold_left (adj_token text) tokens st) =
    adj_diagnostics st ++
      flat_map (adjacent_of_pair text)
        (adjacent_pairs (preceded prev tokens)).
Proof.
  revert prev st. induction tokens as [|t tokens IH]; intros prev st [Hs Hp].
  - simpl. destruct prev; simpl; now rewrite app_nil_r.
  - simpl fold_left.
    rewrite adjacent_pairs_preceded, flat_map_app, app_assoc.
    rewrite (IH (Some t)).
    + f_equal. unfold adj_token.
      destruct prev as [p|].
      * destruct Hp as [Hip Hpt]. simpl flat_map. rewrite app_nil_r.
        unfold adjacent_of_pair, spanning. rewrite Hip.
        destruct (isParticle p) eqn:Ep.
        -- destruct (Hpt eq_refl) as [-> ->]. simpl isAdjacent.
           rewrite (andb_comm (isParticle t) true). simpl andb.
           destruct (isParticle t
                     && str_eqb (getParticleKey t) (getParticleKey p)
                     && (offset t =? offset p + strlen (surface p))).
           ++ assert (Hgt : (adj_streak st + 1 >? 1) = true)
                by (apply Z.gtb_lt; lia).
              now rewrite Hgt.
           ++ simpl. now rewrite app_nil_r.
        -- rewrite andb_false_r. simpl. now rewrite app_nil_r.
      * rewrite Hp, andb_false_r. simpl. now rewrite app_nil_r.
    + unfold adj_token.
      destruct (isParticle t && prevIsParticle st
                && str_eqb (getParticleKey t) (prevKey st)
                && isAdjacent (prevToken st) t);
        [destruct (prevToken st); [destruct (adj_streak st + 1 >? 1)|]|];
        (split; simpl;
         [lia | split; [reflexivity | intros ->; split; reflexivity]]).
Qed.

Lemma adj_sentence_emit acc sentence :
  adj_sentence text acc sentence = acc ++ adjacentParticles_of text sentence.
Proof.
  unfold adj_sentence, adjacentParticles_of.
  rewrite (adj_token_fold _ None); [reflexivity|].
  split; simpl; [lia|reflexivity].
Qed.

Lemma checkAdjacentParticles_loop sentences config :
  checkAdjacentParticles text sentences config =
    if adjacentParticles (rules config)
    then flat_map (adjacentParticles_of text) sentences
    else [].
Proof.
  unfold checkAdjacentParticles.
  destruct (adjacentParticles (rules config)); simpl; [|reflexivity].
  now rewrite (fold_left_emit _ _ adj_sentence_emit).
Qed.

Lemma ra_special_fold tokens acc :
  fold_left (ra_special_token text) tokens acc =
    acc ++ map (raSingle_of text) (List.filter isSpecialRaCase tokens).
Proof.
  revert acc. induction tokens as [|t tokens IH]; intros acc; simpl.
  - now rewrite app_nil_r.
  - rewrite IH. unfold ra_special_token.
    destruct (isSpecialRaCase t); simpl; [|reflexivity].
    now rewrite <- app_assoc.
Qed.

Lemma ra_pair_fold tokens acc prev :
  fst (fold_left (ra_pair_token text) tokens (acc, prev)) =
    acc ++ flat_map (raPair_of text) (adjacent_pairs (preceded prev tokens)).
Proof.
  revert acc prev. induction tokens as [|t tokens IH]; intros acc prev.
  - simpl. destruct prev; simpl; now rewrite app_nil_r.
  - simpl fold_left.
    rewrite adjacent_pairs_preceded, flat_map_app, app_assoc.
    destruct prev as [p|].
    + simpl flat_map. rewrite app_nil_r. unfold raPair_of, spanning.
      destruct (isTargetVerb p && isRaWord t); rewrite (IH _ (Some t));
        [reflexivity|]. simpl. now rewrite app_nil_r.
    + rewrite (IH _ (Some t)). simpl. now rewrite app_nil_r.
Qed.

Lemma ra_sentence_emit acc sentence :
  ra_sentence text acc sentence = acc ++ raDropping_of text sentence.
Proof.
  unfold ra_sentence, raDropping_of.
  now rewrite ra_pair_fold, ra_special_fold, app_assoc.
Qed.

Lemma checkRaDropping_loop sentences config :
  checkRaDropping text sentences config =
    if raDropping (rules config)
    then flat_map (raDropping_of text) sentences
    else [].
Proof.
  unfold checkRaDropping.
  destruct (raDropping (rules config)); simpl; [|reflexivity].
  now rewrite (fold_left_emit _ _ ra_sentence_emit).
Qed.

End RuleLoops.

(** ** The rules *)

Section RuleClaims.

Import Analyzer Grammar Rules Scenario.

Lemma filter_all_true {A : Type} (p : A -> bool) (l : list A) :
  Forall (fun x => p x = true) (List.filter p l).
Proof.
  induction l as [|x l IH]; simpl; [constructor|].
  destruct (p x) eqn:E; [constructor|]; assumption.
Qed.

Lemma adjacent_pairs_Forall {A : Type} (P : A -> Prop) (l : list A) :
  Forall P l -> Forall (fun p => P (fst p) /\ P (snd p)) (adjacent_pairs l).
Proof.
  induction 1 as [|a l Ha Hl IH]; [constructor|].
  destruct l as [|b l]; [constructor|].
  change (adjacent_pairs (a :: b :: l))
    with ((a, b) :: adjacent_pairs (b :: l)).
  constructor; [|exact IH]. split; [exact Ha|]. now inversion Hl.
Qed.

Lemma flat_map_Forall_ext {A B : Type} (f g : A -> list B) (l : list A) :
  Forall (fun x => f x = g x) l -> flat_map f l = flat_map g l.
Proof. induction 1 as [|x l Hx _ IH]; simpl; congruence. Qed.

Lemma particle_key_eq (first second : Token) :
  isParticle first = true ->
  isParticle second = true ->
  sameParticle first second = sameSurfaceAndKey first second.
Proof.
  unfold isParticle, sameParticle, sameSurfaceAndKey, getParticleKey, str_eqb.
  intros Hf Hs. apply bool_decide_eq_true in Hf, Hs. rewrite Hf, Hs.
  destruct (bool_decide (surface second = surface first)); cbn [andb];
    [|reflexivity].
  rewrite (bool_decide_eq_true_2 (js "助詞" = js "助詞")) by reflexivity.
  cbn [andb]. apply bool_decide_ext. split.
  - intros H. now repeat apply app_inv_head in H.
  - now intros ->.
Qed.

Lemma duplicates_of_loop (text : jsstring) (sentence : Sentence) :
  duplicateParticle_of text sentence = duplicates_of text sentence.
Proof.
  unfold duplicateParticle_of, duplicates_of.
  apply flat_map_Forall_ext.
  eapply List.Forall_impl;
    [|apply adjacent_pairs_Forall; apply (filter_all_true isParticle)].
  intros [first second] [Hf Hs]. simpl in Hf, Hs.
  unfold duplicate_of_pair. now rewrite particle_key_eq.
Qed.

Lemma same_particles_count (text : jsstring) (s d : jsstring)
    (tokens : list Token) :
  Forall (fun t => isParticle t = true /\ surface t = s /\ posDetail1 t = d)
    tokens ->
  List.length
    (flat_map (duplicate_of_pair text) (adjacent_pairs tokens)) =
    Nat.pred (List.length tokens).
Proof.
  induction 1 as [|a l Ha Hl IH]; [reflexivity|].
  destruct l as [|b l]; [reflexivity|].
  change (adjacent_pairs (a :: b :: l))
    with ((a, b) :: adjacent_pairs (b :: l)).
  cbn [flat_map]. rewrite length_app, IH.
  destruct Ha as (Hpa & Hsa & Hda).
  inversion Hl as [|? ? (Hpb & Hsb & Hdb) _]; subst.
  unfold duplicate_of_pair.
  rewrite particle_key_eq by assumption.
  unfold sameSurfaceAndKey, str_eqb, isParticle, str_eqb in *.
  apply bool_decide_eq_true in Hpa, Hpb.
  rewrite Hsb, Hdb, Hpa, Hpb.
  rewrite !bool_decide_eq_true_2 by reflexivity. reflexivity.
Qed.

(** C5: the comma-limit rule gives, for every sentence whose text has
    strictly more commas than [commaLimitMax], exactly one diagnostic over
    the whole sentence, and none for the other sentences; the sentence of
    the specification, with 4 commas and a limit of 3, gets exactly one. *)
Theorem commaLimit_rule :
  (forall text sentences config,
      checkCommaLimit text sentences config =
        if commaLimit (rules config)
        then flat_map (commaLimit_of text (commaLimitMax (rules config)))
               sentences
        else [])
  /\ (exists sentence,
        sentencesOf commaText commaMorphemes = [sentence]
        /\ Analyzer.text sentence = commaText
        /\ start sentence = 0
        /\ end_ sentence = strlen commaText
        /\ countCommas (Analyzer.text sentence) = 4
        /\ checkCommaLimit commaText [sentence] defaultConfig =
             [ {| d_start := {| line := 0; character := 0 |};
                  d_end := {| line := 0; character := 19 |};
                  message := CommaLimitMessage 3 4;
                  severity := 2;
                  code := "comma-limit";
                  source := "wakame" |} ]).
Proof.
  split.
  - intros text. apply checkCommaLimit_loop.
  - eexists. split; [vm_compute; reflexivity|]. vm_compute. tauto.
Qed.

(** C4: the duplicate-particle rule gives one diagnostic for every two
    immediately successive tokens of the particle-only subsequence of a
    sentence that have the same surface and the same (POS, POS detail 1)
    key, in order, and no other; a run of [n] such particles therefore
    gives [n - 1] diagnostics: two consecutive particles give exactly one,
    three give exactly two. *)
Theorem duplicateParticle_rule :
  (forall text sentences config,
      checkDuplicateParticle text sentences config =
        if duplicateParticle (rules config)
        then flat_map (duplicates_of text) sentences
        else [])
  /\ (forall text sentence config s d,
        duplicateParticle (rules config) = true ->
        Forall (fun t => isParticle t = true /\ surface t = s
                         /\ posDetail1 t = d) (tokens sentence) ->
        List.length (checkDuplicateParticle text [sentence] config) =
          Nat.pred (List.length (tokens sentence)))
  /\ List.length
       (checkDuplicateParticle twoWoText
          (sentencesOf twoWoText twoWoMorphemes) defaultConfig) = 1%nat
  /\ List.length
       (checkDuplicateParticle threeWoText
          (sentencesOf threeWoText threeWoMorphemes) defaultConfig) = 2%nat.
Proof.
  split; [|split; [|split; reflexivity]].
  - intros text sentences config. rewrite checkDuplicateParticle_loop.
    destruct (duplicateParticle (rules config)); [|reflexivity].
    apply flat_map_Forall_ext, Forall_forall. intros sentence _.
    apply duplicates_of_loop.
  - intros text sentence config s d Hflag Hall.
    rewrite checkDuplicateParticle_loop, Hflag. simpl flat_map.
    rewrite app_nil_r. unfold duplicateParticle_of.
    assert (Hfilter : List.filter isParticle (tokens sentence) = tokens sentence).
    { induction Hall as [|t l (Hp & _) _ IH]; simpl; [reflexivity|].
      now rewrite Hp, IH. }
    rewrite Hfilter. now apply (same_particles_count text s d).
Qed.

Lemma duplicateParticle_rule_witness :
  List.length (checkDuplicateParticle (js "をを") [woRun] defaultConfig)
  = 1%nat.
Proof.
  destruct duplicateParticle_rule as (_ & Hrun & _).
  refine (Hrun (js "をを") woRun defaultConfig (js "を") (js "格助詞")
            eq_refl _).
  vm_compute. repeat constructor.
Defined.

(** C6, as the code has it: per sentence, the ra-dropping rule gives first
    one diagnostic on every verb token whose dictionary form is one of the
    two contracted forms, over that token alone, then one diagnostic for
    every stem-form self-standing one-step verb immediately followed by the
    verb suffix of dictionary form [reru], over both tokens; the stem-form
    verb followed by the suffix gets one diagnostic over the two tokens,
    and the contracted verb one over itself. *)
Theorem raDropping_rule :
  (forall text sentences config,
      checkRaDropping text sentences config =
        if raDropping (rules config)
        then flat_map (raDropping_of text) sentences
        else [])
  /\ checkRaDropping miReruText
       (sentencesOf miReruText miReruMorphemes) defaultConfig =
       [ {| d_start := {| line := 0; character := 3 |};
            d_end := {| line := 0; character := 6 |};
            message := RaDroppingMessage;
            severity := 2;
            code := "ra-dropping";
            source := "wakame" |} ]
  /\ checkRaDropping koreruText
       (sentencesOf koreruText koreruMorphemes) defaultConfig =
       [ {| d_start := {| line := 0; character := 3 |};
            d_end := {| line := 0; character := 6 |};
            message := RaDroppingMessage;
            severity := 2;
            code := "ra-dropping";
            source := "wakame" |} ].
Proof.
  split; [|split; reflexivity].
  intros text. apply checkRaDropping_loop.
Qed.

(** C6 as the specification words it fails: a token whose dictionary form
    is one of the two contracted forms is not flagged when it is not a
    verb. *)
Lemma raDropping_claimed_fails :
  checkRaDropping nounKoreruText
    (sentencesOf nounKoreruText nounKoreruMorphemes) defaultConfig = []
  /\ flat_map (raDropping_claimed nounKoreruText)
       (sentencesOf nounKoreruText nounKoreruMorphemes) <> [].
Proof. split; [reflexivity|discriminate]. Qed.


End RuleClaims.

(** ** The sentence segmenter *)

Section Segmenter.

Import Analyzer.

Variable text : jsstring.

Lemma split_finish_sentences st :
  split_finish text st =
    sentences st ++
      split_finish text
        {| sentences := []; currentStart := currentStart st;
           currentTokens := currentTokens st |}.
Proof.
  unfold split_finish. simpl.
  destruct (last (currentTokens st)); [reflexivity|now rewrite app_nil_r].
Qed.

Lemma split_loop tokens st :
  split_finish text (fold_left (split_step text) tokens st) =
    sentences st ++
      split_from text (currentTokens st) (currentStart st) tokens.
Proof.
  revert st. induction tokens as [|t tokens IH]; intros st.
  - apply split_finish_sentences.
  - simpl. rewrite IH. unfold split_step.
    destruct (isSentenceEnd t); simpl; [|reflexivity].
    now rewrite <- app_assoc.
Qed.

Lemma splitSentences_split_from tokens :
  splitSentences text tokens = split_from text [] 0 tokens.
Proof. unfold splitSentences. now rewrite split_loop. Qed.



Lemma split_from_tokens tokens cur z :
  flat_map Analyzer.tokens (split_from text cur z tokens) = cur ++ tokens.
Proof.
  revert cur z. induction tokens as [|t tokens IH]; intros cur z; simpl.
  - unfold split_finish. simpl. destruct (last cur) eqn:El; simpl.
    + reflexivity.
    + apply last_None in El. now subst.
  - destruct (isSentenceEnd t); simpl; rewrite IH, <- ?app_assoc; reflexivity.
Qed.

Lemma strlen_app (a b : jsstring) : strlen (a ++ b) = strlen a + strlen b.
Proof. unfold strlen. rewrite length_app. lia. Qed.

Lemma tiled_span z ts :
  tiled z ts ->
  forall pre t rest, ts = pre ++ t :: rest ->
    offset t + strlen (surface t) =
      z + strlen (flat_map surface (pre ++ [t]))
    /\ tiled (offset t + strlen (surface t)) rest
    /\ exists f, head (pre ++ [t]) = Some f /\ offset f = z.
Proof.
  intros Ht pre. revert z ts Ht.
  induction pre as [|a pre IH]; intros z ts Ht t rest ->; simpl in *.
  - destruct Ht as [Ho Hr]. rewrite app_nil_r, Ho. repeat split; eauto.
  - destruct Ht as [Ho Hr].
    destruct (IH _ _ Hr t rest eq_refl) as (He & Hrest & _).
    split; [|split; [exact Hrest|eauto]].
    rewrite He, (strlen_app (surface a)). lia.
Qed.

Lemma split_from_anchored tokens cur z :
  tiled z (cur ++ tokens) ->
  Forall (fun s => anchored s /\ start s <= end_ s)
    (split_from text cur z tokens).
Proof.
  revert cur z. induction tokens as [|t tokens IH]; intros cur z Ht; simpl.
  - unfold split_finish. simpl.
    destruct (last cur) as [l|] eqn:El; repeat constructor; simpl.
    + apply last_Some in El as [pre ->]. rewrite app_nil_r in Ht.
      destruct (tiled_span _ _ Ht pre l [] eq_refl) as (_ & _ & f & Hf & Ho).
      exists f. auto.
    + apply last_Some in El as [pre ->]. rewrite app_nil_r in Ht.
      destruct (tiled_span _ _ Ht pre l [] eq_refl) as (He & _).
      rewrite He. pose proof (strlen_nonneg (flat_map surface (pre ++ [l]))).
      lia.
  - destruct (tiled_span _ _ Ht cur t tokens eq_refl)
      as (He & Hrest & f & Hf & Ho).
    destruct (isSentenceEnd t).
    + constructor; [|now apply (IH [])].
      split; [exists f; auto|]. simpl. rewrite He.
      pose proof (strlen_nonneg (flat_map surface (cur ++ [t]))). lia.
    + apply IH. now rewrite <- app_assoc.
Qed.

Lemma slice_middle (pre mid post : jsstring) :
  slice (pre ++ mid ++ post) (strlen pre) (strlen pre + strlen mid) = mid.
Proof.
  unfold slice.
  pose proof (strlen_nonneg pre). pose proof (strlen_nonneg mid).
  pose proof (strlen_nonneg post).
  rewrite !strlen_app.
  destruct (Z.ltb_spec (strlen pre) 0); [lia|].
  destruct (Z.ltb_spec (strlen pre + strlen mid) 0); [lia|].
  rewrite !Z.min_l by lia.
  replace (Z.to_nat (strlen pre)) with (List.length pre)
    by (unfold strlen; lia).
  replace (Z.to_nat (Z.max (strlen pre + strlen mid - strlen pre) 0))
    with (List.length mid) by (unfold strlen; lia).
  rewrite drop_app_length. apply take_app_length.
Qed.

Lemma split_from_text tokens cur z pre post :
  text = pre ++ flat_map surface (cur ++ tokens) ++ post ->
  strlen pre = z ->
  tiled z (cur ++ tokens) ->
  flat_map Analyzer.text (split_from text cur z tokens) =
    flat_map surface (cur ++ tokens).
Proof.
  revert cur z pre.
  induction tokens as [|t tokens IH]; intros cur z pre Htext Hz Ht; simpl.
  - unfold split_finish. simpl.
    destruct (last cur) as [l|] eqn:El; simpl.
    + rewrite !app_nil_r in *.
      apply last_Some in El as [c ->].
      destruct (tiled_span _ _ Ht c l [] eq_refl) as (He & _).
      rewrite He, <- Hz, Htext. apply slice_middle.
    + apply last_None in El. now subst.
  - destruct (tiled_span _ _ Ht cur t tokens eq_refl) as (He & Hrest & _).
    destruct (isSentenceEnd t); simpl.
    + assert (Hsplit : text =
                pre ++ flat_map surface (cur ++ [t])
                    ++ (flat_map surface tokens ++ post)).
      { rewrite Htext, !flat_map_app. simpl. rewrite <- !app_assoc.
        reflexivity. }
      assert (Hs : slice text z (offset t + strlen (surface t)) =
                     flat_map surface (cur ++ [t])).
      { rewrite He, <- Hz, Hsplit. apply slice_middle. }
      rewrite Hs.
      rewrite (IH [] _ (pre ++ flat_map surface (cur ++ [t]))).
      * simpl. rewrite !flat_map_app. simpl. now rewrite <- !app_assoc.
      * simpl. rewrite Hsplit at 1. rewrite <- !app_assoc. reflexivity.
      * rewrite strlen_app, Hz. symmetry. exact He.
      * exact Hrest.
    + rewrite (IH (cur ++ [t]) z pre); rewrite <- ?app_assoc; auto.
Qed.

End Segmenter.

Section SegmenterClaims.

Import Analyzer Scenario.




End SegmenterClaims.

(** ** The tokenizer adapter *)

Section Tokenizer.

Import Analyzer.

Lemma starts_with_nil (s : jsstring) : s <> [] -> starts_with s [] = false.
Proof. destruct s; [congruence|reflexivity]. Qed.

Lemma find_from_spec (s t : jsstring) (j : Z) :
  (find_from s t j = -1
   /\ forall n, (n <= List.length t)%nat -> starts_with s (drop n t) = false)
  \/ (exists n, (n <= List.length t)%nat
        /\ find_from s t j = j + Z.of_nat n
        /\ starts_with s (drop n t) = true
        /\ forall m, (m < n)%nat -> starts_with s (drop m t) = false).
Proof.
  revert j. induction t as [|c t IH]; intros j; simpl find_from.
  - destruct (starts_with s []) eqn:E.
    + right. exists 0%nat. simpl. repeat split; [lia|lia|exact E|lia].
    + left. split; [reflexivity|]. intros [|n] Hn; simpl in *; [exact E|lia].
  - destruct (starts_with s (c :: t)) eqn:E.
    + right. exists 0%nat. simpl. repeat split; [lia|lia|exact E|lia].
    + destruct (IH (j + 1)) as [[Hr Hno]|(n & Hn & Hr & Hyes & Hno)].
      * left. split; [exact Hr|]. intros [|n] Hn; [exact E|].
        simpl. apply Hno. simpl in Hn. lia.
      * right. exists (S n). simpl. repeat split; [lia|lia|exact Hyes|].
        intros [|m] Hm; [exact E|]. simpl. apply Hno. lia.
Qed.

Lemma indexOf_none (text s : jsstring) (cursor : Z) :
  s <> [] -> strlen text < cursor -> indexOf text s cursor = -1.
Proof.
  intros Hs Hc. unfold indexOf. pose proof (strlen_nonneg text).
  rewrite Z.max_l, Z.min_r by lia.
  replace (Z.to_nat (strlen text)) with (List.length text)
    by (unfold strlen; lia).
  rewrite drop_all. simpl. now rewrite starts_with_nil.
Qed.

Lemma offsetFor_located (text s : jsstring) (cursor : Z) :
  s <> [] -> 0 <= cursor ->
  let o := offsetFor text cursor s in
  (occurs_at text s o /\ cursor <= o
   /\ forall k, cursor <= k < o -> ~ occurs_at text s k)
  \/ (o = cursor /\ forall k, cursor <= k -> ~ occurs_at text s k).
Proof.
  intros Hs Hc. unfold offsetFor. pose proof (strlen_nonneg text) as Hlen.
  destruct (Z.le_gt_cases cursor (strlen text)) as [Hin|Hout].
  - unfold indexOf. rewrite Z.max_l, Z.min_l by lia.
    set (drop_c := drop (Z.to_nat cursor) text).
    assert (Hdl : Z.of_nat (List.length drop_c) = strlen text - cursor).
    { unfold drop_c, strlen in *. rewrite length_drop. lia. }
    assert (Hdrop : forall n, drop n drop_c
                              = drop (Z.to_nat (cursor + Z.of_nat n)) text).
    { intros n. unfold drop_c. rewrite drop_drop. f_equal. lia. }
    destruct (find_from_spec s drop_c cursor)
      as [[-> Hno]|(n & Hn & -> & Hyes & Hno)].
    + right. split; [reflexivity|]. intros k Hk [Hr Ho].
      specialize (Hno (Z.to_nat (k - cursor))). rewrite Hdrop in Hno.
      replace (cursor + Z.of_nat (Z.to_nat (k - cursor))) with k in Hno by lia.
      rewrite Hno in Ho; [discriminate|lia].
    + left. destruct (Z.geb_spec (cursor + Z.of_nat n) 0); [|lia].
      rewrite Hdrop in Hyes. repeat split; [lia|lia|exact Hyes|lia|].
      intros k Hk [Hr Ho].
      specialize (Hno (Z.to_nat (k - cursor))). rewrite Hdrop in Hno.
      replace (cursor + Z.of_nat (Z.to_nat (k - cursor))) with k in Hno by lia.
      rewrite Hno in Ho; [discriminate|lia].
  - rewrite indexOf_none by (assumption || lia). simpl.
    right. split; [reflexivity|]. intros k Hk [Hr _]. lia.
Qed.

Lemma offsetFor_ge (text s : jsstring) (cursor : Z) :
  s <> [] -> 0 <= cursor -> cursor <= offsetFor text cursor s.
Proof.
  intros Hs Hc.
  destruct (offsetFor_located text s cursor Hs Hc) as [(_ & H & _)|[-> _]];
    lia.
Qed.

Lemma tokenize_loop (text : jsstring) (kts : list KuromojiToken)
    (acc : list Token) (cursor : Z) :
  fst (fold_left (tokenize_step text) kts (acc, cursor)) =
    acc ++ tokens_from text cursor kts.
Proof.
  revert acc cursor. induction kts as [|kt kts IH]; intros acc cursor.
  - simpl. now rewrite app_nil_r.
  - cbn [fold_left tokens_from]. unfold tokenize_step at 2 3.
    cbn [fst app offset surface]. rewrite IH, <- app_assoc. reflexivity.
Qed.

Lemma tokens_from_cons (text : jsstring) (cursor : Z) (kt : KuromojiToken)
    (kts : list KuromojiToken) :
  exists token,
    tokens_from text cursor (kt :: kts) =
      token :: tokens_from text (offset token + strlen (surface token)) kts
    /\ offset token = offsetFor text cursor (surface_form kt)
    /\ surface token = surface_form kt.
Proof.
  eexists. split; [|split].
  - cbn [tokens_from tokenize_step fst app]. reflexivity.
  - reflexivity.
  - reflexivity.
Qed.

Lemma tokens_from_sorted (text : jsstring) (kts : list KuromojiToken) :
  Forall (fun kt => surface_form kt <> []) kts ->
  forall cursor, 0 <= cursor ->
    nondecreasing (tokens_from text cursor kts)
    /\ forall t, head (tokens_from text cursor kts) = Some t ->
                 cursor <= offset t.
Proof.
  induction 1 as [|kt kts Hkt _ IH]; intros cursor Hc.
  - split; [intros i t1 t2 Hi; destruct i; discriminate|discriminate].
  - destruct (tokens_from_cons text cursor kt kts) as (tok & -> & Ho & Hs).
    pose proof (offsetFor_ge text _ cursor Hkt Hc) as Hge.
    rewrite <- Ho in Hge.
    pose proof (strlen_nonneg (surface tok)) as Hlen.
    destruct (IH (offset tok + strlen (surface tok))) as [Hsorted Hhead];
      [lia|].
    split.
    + intros [|i] t1 t2 H1 H2; simpl in H1, H2.
      * injection H1 as <-. rewrite <- head_lookup in H2.
        specialize (Hhead _ H2). lia.
      * now apply (Hsorted i).
    + intros t [= <-]. exact Hge.
Qed.

Lemma tokens_from_derived (text : jsstring) (kts : list KuromojiToken) :
  Forall (fun kt => surface_form kt <> []) kts ->
  forall cursor, 0 <= cursor -> derived text cursor (tokens_from text cursor kts).
Proof.
  induction 1 as [|kt kts Hkt _ IH]; intros cursor Hc; [exact I|].
  destruct (tokens_from_cons text cursor kt kts) as (tok & -> & Ho & Hs).
  pose proof (offsetFor_ge text _ cursor Hkt Hc) as Hge.
  pose proof (strlen_nonneg (surface tok)) as Hlen.
  split.
  - unfold located. rewrite Ho, Hs. now apply offsetFor_located.
  - apply IH. rewrite Ho. lia.
Qed.

Lemma tokens_from_surfaces (text : jsstring) (kts : list KuromojiToken)
    (cursor : Z) :
  map surface (tokens_from text cursor kts) = map surface_form kts.
Proof.
  revert cursor. induction kts as [|kt kts IH]; intros cursor; [reflexivity|].
  destruct (tokens_from_cons text cursor kt kts) as (tok & -> & _ & Hs).
  simpl. now rewrite Hs, IH.
Qed.

Lemma starts_with_app (s rest : jsstring) : starts_with s (s ++ rest) = true.
Proof.
  induction s as [|c s IH]; simpl; [reflexivity|].
  now rewrite Z.eqb_refl, IH.
Qed.

Lemma find_from_here (s t : jsstring) (j : Z) :
  starts_with s t = true -> find_from s t j = j.
Proof. intros H. destruct t; simpl; now rewrite H. Qed.

Lemma indexOf_here (pre s post : jsstring) :
  indexOf (pre ++ s ++ post) s (strlen pre) = strlen pre.
Proof.
  unfold indexOf. pose proof (strlen_nonneg pre).
  pose proof (strlen_nonneg (s ++ post)).
  rewrite strlen_app, Z.max_l, Z.min_l by lia.
  replace (Z.to_nat (strlen pre)) with (List.length pre)
    by (unfold strlen; lia).
  rewrite drop_app_length. apply find_from_here, starts_with_app.
Qed.

(** A backend whose surfaces concatenate to the text gives tokens that
    follow one another without a gap. *)
Lemma tokens_from_tiled (kts : list KuromojiToken) :
  forall pre post,
    tiled (strlen pre)
      (tokens_from (pre ++ flat_map surface_form kts ++ post)
         (strlen pre) kts).
Proof.
  induction kts as [|kt kts IH]; intros pre post; [exact I|].
  destruct (tokens_from_cons (pre ++ flat_map surface_form (kt :: kts) ++ post)
              (strlen pre) kt kts) as (tok & -> & Ho & Hs).
  assert (Hhere : offset tok = strlen pre).
  { rewrite Ho. unfold offsetFor. simpl flat_map. rewrite <- app_assoc.
    rewrite indexOf_here. pose proof (strlen_nonneg pre).
    destruct (Z.geb_spec (strlen pre) 0); [reflexivity|lia]. }
  split; [exact Hhere|].
  rewrite Hhere, Hs, <- strlen_app.
  specialize (IH (pre ++ surface_form kt) post).
  simpl flat_map. rewrite <- !app_assoc in *. exact IH.
Qed.

End Tokenizer.

Section TokenizerClaims.

Import Analyzer Scenario.

(** C2, as the code has it: when no surface the backend returns is empty,
    the offsets of the tokens never decrease from a token to the next; each
    offset is the first occurrence of the surface at or after a cursor that
    starts at 0, or the cursor itself when there is none, and the cursor
    moves to the offset plus the length of the surface; the tokens carry
    the surfaces of the backend in order. *)
Theorem tokenize_offsets (st : State) (tk : Tokenizer) (text : jsstring) :
  tokenizer st = Some tk ->
  Forall (fun kt => surface_form kt <> []) (tk text) ->
  exists tokens,
    fst (tokenize st text) = Ok tokens
    /\ nondecreasing tokens
    /\ derived text 0 tokens
    /\ map surface tokens = map surface_form (tk text).
Proof.
  intros Htk Hne. unfold tokenize. rewrite Htk. eexists.
  split; [reflexivity|].
  unfold tokenize_tokens. rewrite tokenize_loop. simpl app.
  split; [now apply tokens_from_sorted|].
  split; [now apply tokens_from_derived|apply tokens_from_surfaces].
Qed.

Lemma tokenize_offsets_witness :
  exists tokens,
    fst (tokenize (readyWith unitTokenizer) commaText) = Ok tokens
    /\ nondecreasing tokens.
Proof.
  destruct (tokenize_offsets (readyWith unitTokenizer) unitTokenizer commaText)
    as (tokens & Hok & Hsorted & _).
  - reflexivity.
  - vm_compute. repeat constructor; discriminate.
  - exists tokens. split; assumption.
Defined.

(** C2 as the specification words it fails: after two surfaces that are
    not found have moved the cursor past the end of the text, an empty
    surface is given the length of the text, below the offset before it. *)
Lemma tokenize_offsets_decrease :
  exists tokens,
    fst (tokenize (readyWith strayBackend) (js "ab")) = Ok tokens
    /\ map offset tokens = [0; 3; 2]
    /\ ~ nondecreasing tokens.
Proof.
  eexists. split; [reflexivity|]. split; [reflexivity|].
  intros H. specialize (H 1%nat _ _ eq_refl eq_refl).
  vm_compute in H. now apply H.
Qed.

End TokenizerClaims.

(** ** Tokenizer and segmenter together *)

Section Pipeline.

Import Analyzer.

Lemma flat_map_surfaces (tokens : list Token) (kts : list KuromojiToken) :
  map surface tokens = map surface_form kts ->
  flat_map surface tokens = flat_map surface_form kts.
Proof.
  revert kts. induction tokens as [|t tokens IH]; intros [|kt kts] H;
    try discriminate; [reflexivity|].
  injection H as Hs Hrest. simpl. now rewrite Hs, (IH kts).
Qed.

(** When the surfaces the backend returns concatenate to the text, as with
    an analyzer that returns white space as tokens, [analyze] gives
    sentences that start with their first token and whose texts
    concatenate to the text. *)
Lemma analyze_covers (st : State) (tk : Tokenizer) (text : jsstring) :
  tokenizer st = Some tk ->
  text = flat_map surface_form (tk text) ->
  exists r,
    fst (analyze st text) = Ok r
    /\ tiled 0 (r_tokens r)
    /\ Forall (fun s => anchored s /\ start s <= end_ s) (r_sentences r)
    /\ flat_map Analyzer.text (r_sentences r) = text.
Proof.
  intros Htk Htext. unfold analyze, tokenize. rewrite Htk. simpl.
  eexists. split; [reflexivity|]. simpl.
  unfold tokenize_tokens. rewrite tokenize_loop. simpl app.
  assert (Ht : tiled 0 (tokens_from text 0 (tk text))).
  { pose proof (tokens_from_tiled (tk text) [] []) as H.
    simpl in H. rewrite app_nil_r, <- Htext in H. exact H. }
  assert (Hs : flat_map surface (tokens_from text 0 (tk text)) = text).
  { rewrite Htext at 3. apply flat_map_surfaces, tokens_from_surfaces. }
  split; [exact Ht|].
  rewrite splitSentences_split_from.
  split; [now apply split_from_anchored|].
  rewrite (split_from_text text _ [] 0 [] []); simpl;
    rewrite ?app_nil_r; auto.
Qed.

End Pipeline.

(** ** Comment extraction *)

Section Extraction.

Import Analyzer Extract.

Lemma aboveTenth_iff (ratio : Q) :
  aboveTenth ratio = true <-> (1 # 10 < ratio)%Q.
Proof.
  unfold aboveTenth. rewrite negb_true_iff. split.
  - intros H. apply Qnot_le_lt. intros Hle.
    apply Qle_bool_iff in Hle. congruence.
  - intros H. destruct (Qle_bool ratio (1 # 10)) eqn:E; [|reflexivity].
    apply Qle_bool_iff in E. exfalso. now apply (Qlt_not_le _ _ H).
Qed.

Lemma atLeast_iff (ratio minJapaneseRatio : Q) :
  atLeast ratio minJapaneseRatio = true <-> (minJapaneseRatio <= ratio)%Q.
Proof. apply Qle_bool_iff. Qed.

Lemma visit_emit languageId minJapaneseRatio node comments :
  visit languageId minJapaneseRatio node comments =
    comments ++ retainedNode languageId minJapaneseRatio node.
Proof.
  unfold visit, retainedNode, isCandidate, rangeOfNode.
  destruct (isCommentNode (n_type node) languageId
            || (languageId =? "python")%string && isPythonDocstring node);
    simpl; [|now rewrite app_nil_r].
  destruct (atLeast _ _); [reflexivity|now rewrite app_nil_r].
Qed.

Lemma size_children (n : SyntaxNode) : size n = S (sizes (children n)).
Proof. destruct n. reflexivity. Qed.

Lemma sizes_app (a b : list SyntaxNode) :
  sizes (a ++ b) = (sizes a + sizes b)%nat.
Proof. induction a as [|n a IH]; simpl; [reflexivity|]. rewrite IH. lia. Qed.

Lemma preorder_children (n : SyntaxNode) :
  preorder n = n :: flat_map preorder (children n).
Proof. destruct n. reflexivity. Qed.

(** With fuel for every node, the traversal visits the nodes of the stack
    in preorder. *)
Lemma traverse_preorder languageId minJapaneseRatio fuel :
  forall stack comments,
    (sizes stack <= fuel)%nat ->
    traverse fuel languageId minJapaneseRatio stack comments =
      comments ++
        flat_map (retainedNode languageId minJapaneseRatio)
          (flat_map preorder stack).
Proof.
  induction fuel as [|fuel IH]; intros stack comments Hfuel.
  - destruct stack as [|n stack]; simpl; [now rewrite app_nil_r|].
    simpl in Hfuel. rewrite size_children in Hfuel. lia.
  - destruct stack as [|n stack]; simpl; [now rewrite app_nil_r|].
    simpl in Hfuel. rewrite size_children in Hfuel.
    rewrite IH by (rewrite sizes_app; lia).
    rewrite visit_emit, preorder_children, flat_map_app, <- app_assoc.
    simpl. now rewrite flat_map_app.
Qed.

Lemma exec_loop_matches fuel pattern text :
  forall lastIndex comments,
    exec_loop fuel pattern text lastIndex comments =
      comments ++
        flat_map retainedMatch (matches_from fuel pattern text lastIndex).
Proof.
  induction fuel as [|fuel IH]; intros lastIndex comments; simpl.
  - now rewrite app_nil_r.
  - destruct (exec pattern text lastIndex) as [[index original]|];
      [|now rewrite app_nil_r].
    rewrite IH. simpl. unfold retainedMatch at 2, rangeOfMatch. simpl.
    destruct (aboveTenth _); simpl; now rewrite <- ?app_assoc.
Qed.

Lemma extractComments_matches text languageId :
  extractComments text languageId =
    flat_map
      (fun pattern =>
         flat_map retainedMatch
           (matches_from (S (List.length text)) pattern text 0))
      (patternsOf languageId).
Proof.
  unfold extractComments, patternsOf.
  destruct (patterns languageId) as [langPatterns|]; [|reflexivity].
  rewrite (fold_left_emit _
             (fun pattern =>
                flat_map retainedMatch
                  (matches_from (S (List.length text)) pattern text 0)));
    [reflexivity|].
  intros acc pattern. apply exec_loop_matches.
Qed.

(** *** The fuel of the loops is enough *)

Lemma starts_with_length (s t : jsstring) :
  starts_with s t = true -> (List.length s <= List.length t)%nat.
Proof.
  revert t. induction s as [|c s IH]; intros [|d t] H; simpl in *;
    try lia; try discriminate.
  apply andb_true_iff in H as [_ H]. apply IH in H. lia.
Qed.

Lemma indexOf_found (text s : jsstring) (pos : Z) :
  0 <= pos ->
  indexOf text s pos <> -1 ->
  Z.min pos (strlen text) <= indexOf text s pos
  /\ indexOf text s pos + strlen s <= strlen text.
Proof.
  intros Hpos. unfold indexOf. pose proof (strlen_nonneg text) as Hlen.
  rewrite Z.max_l by lia. set (k := Z.min pos (strlen text)).
  assert (Hk : 0 <= k <= strlen text) by (unfold k; lia).
  destruct (find_from_spec s (drop (Z.to_nat k) text) k)
    as [[-> _]|(n & Hn & -> & Hyes & _)]; [congruence|].
  intros _. rewrite length_drop in Hn. rewrite drop_drop in Hyes.
  apply starts_with_length in Hyes. rewrite length_drop in Hyes.
  unfold strlen in *. lia.
Qed.

Lemma takeWhile_length (p : Z -> bool) (s : jsstring) :
  (List.length (takeWhile p s) <= List.length s)%nat.
Proof.
  induction s as [|c s IH]; simpl; [lia|]. destruct (p c); simpl; lia.
Qed.

Lemma strlen_slice (s : jsstring) (a b : Z) :
  0 <= a <= b -> b <= strlen s -> strlen (slice s a b) = b - a.
Proof.
  intros Hab Hb. unfold slice.
  destruct (Z.ltb_spec a 0); [lia|]. destruct (Z.ltb_spec b 0); [lia|].
  rewrite !Z.min_l by lia. unfold strlen in *.
  rewrite length_take, length_drop. lia.
Qed.

Lemma exec_progress (pattern : Pattern) (text : jsstring) (lastIndex : Z)
    (index : Z) (original : jsstring) :
  wellFormed pattern ->
  0 <= lastIndex ->
  exec pattern text lastIndex = Some (index, original) ->
  Z.min lastIndex (strlen text) <= index
  /\ 0 < strlen original
  /\ index + strlen original <= strlen text.
Proof.
  intros Hwf Hpos. pose proof (strlen_nonneg text) as Hlen.
  destruct pattern as [marker|opening closing]; simpl in *.
  - destruct (Z.eqb_spec (indexOf text marker lastIndex) (-1)) as [|Hne];
      [discriminate|].
    intros [= <- <-].
    destruct (indexOf_found text marker lastIndex Hpos Hne) as [Hlo Hhi].
    split; [exact Hlo|]. rewrite strlen_app.
    assert (0 < strlen marker)
      by (destruct marker; [congruence|unfold strlen; simpl; lia]).
    pose proof (strlen_nonneg
                  (takeWhile (fun c => negb (isLineTerminator c))
                     (drop (Z.to_nat (indexOf text marker lastIndex
                                      + strlen marker)) text))).
    split; [lia|].
    pose proof (takeWhile_length (fun c => negb (isLineTerminator c))
                  (drop (Z.to_nat (indexOf text marker lastIndex
                                   + strlen marker)) text)) as Htw.
    rewrite length_drop in Htw. unfold strlen in *. lia.
  - destruct (Z.eqb_spec (indexOf text opening lastIndex) (-1)) as [|Hne];
      [discriminate|].
    destruct (indexOf_found text opening lastIndex Hpos Hne) as [Hlo Hhi].
    assert (0 < strlen opening)
      by (destruct opening; [congruence|unfold strlen; simpl; lia]).
    set (index0 := indexOf text opening lastIndex) in *.
    destruct (Z.eqb_spec (indexOf text closing (index0 + strlen opening)) (-1))
      as [|Hnc]; [discriminate|].
    intros [= <- <-].
    destruct (indexOf_found text closing (index0 + strlen opening))
      as [Hclo Hchi]; [lia|exact Hnc|].
    pose proof (strlen_nonneg closing).
    rewrite strlen_slice by lia. lia.
Qed.

Lemma matches_from_adequate (pattern : Pattern) (text : jsstring) :
  wellFormed pattern ->
  forall fuel fuel' lastIndex,
    0 <= lastIndex ->
    (Z.to_nat (strlen text - lastIndex) < fuel)%nat ->
    (Z.to_nat (strlen text - lastIndex) < fuel')%nat ->
    matches_from fuel pattern text lastIndex =
      matches_from fuel' pattern text lastIndex.
Proof.
  intros Hwf. induction fuel as [|fuel IH]; intros fuel' lastIndex Hpos Hf Hf';
    [lia|].
  destruct fuel' as [|fuel']; [lia|]. simpl.
  destruct (exec pattern text lastIndex) as [[index original]|] eqn:E;
    [|reflexivity].
  destruct (exec_progress _ _ _ _ _ Hwf Hpos E) as (Hlo & Hlen & Hhi).
  f_equal. apply IH; lia.
Qed.

(** More fuel than [extractComments] gives does not change the matches. *)
Lemma extractComments_fuel (pattern : Pattern) (text : jsstring) (more : nat) :
  wellFormed pattern ->
  matches_from (S (List.length text) + more) pattern text 0 =
    matches_from (S (List.length text)) pattern text 0.
Proof.
  intros Hwf. apply matches_from_adequate; [exact Hwf|lia| |];
    unfold strlen; lia.
Qed.

Lemma patterns_wellFormed (languageId : string) (pattern : Pattern) :
  In pattern (patternsOf languageId) -> wellFormed pattern.
Proof.
  unfold patternsOf, patterns.
  repeat match goal with
         | |- context [String.eqb ?a ?b] => destruct (String.eqb a b)
         end;
    simpl; intros H;
    repeat (destruct H as [<-|H]; [simpl; unfold tripleSingle, tripleDouble;
                                   discriminate|]);
    destruct H.
Qed.

Lemma dropWhile_length (p : Z -> bool) (s : jsstring) :
  (List.length (dropWhile p s) <= List.length s)%nat.
Proof.
  induction s as [|c s IH]; simpl; [lia|]. destruct (p c); simpl; lia.
Qed.

Lemma removeLeadingStars_adequate :
  forall fuel fuel' atLineStart s,
    (List.length s < fuel)%nat -> (List.length s < fuel')%nat ->
    removeLeadingStars fuel atLineStart s =
      removeLeadingStars fuel' atLineStart s.
Proof.
  induction fuel as [|fuel IH]; intros fuel' atLineStart s Hf Hf'; [lia|].
  destruct fuel' as [|fuel']; [lia|]. simpl.
  assert (Hkeep :
            match s with
            | [] => []
            | c :: s' => c :: removeLeadingStars fuel (isLineTerminator c) s'
            end =
            match s with
            | [] => []
            | c :: s' => c :: removeLeadingStars fuel' (isLineTerminator c) s'
            end).
  { destruct s as [|c s']; [reflexivity|]. simpl in Hf, Hf'.
    f_equal. apply IH; lia. }
  rewrite Hkeep. destruct atLineStart; [|reflexivity].
  pose proof (dropWhile_length isSpace s) as Hd.
  destruct (dropWhile isSpace s) as [|c r]; [reflexivity|].
  simpl in Hd.
  destruct c as [|c|c]; try reflexivity.
  repeat (destruct c as [c|c|]; try reflexivity).
  destruct r as [|d r']; [reflexivity|]. simpl in Hd.
  destruct (isSpace d); apply IH; simpl; lia.
Qed.

End Extraction.

Section ExtractionClaims.

Import Analyzer Extract Scenario.

(** C3, as the code has it: the syntax-tree strategy retains a candidate,
    a comment or docstring node with its sanitized text, exactly when the
    Japanese ratio of the sanitized text is at least [minJapaneseRatio];
    the regular-expression strategy has no threshold of its own to set and
    retains a match, with its markers removed, exactly when the ratio of
    that text is above 0.1. *)
Theorem extraction_thresholds :
  (forall ts text languageId minJapaneseRatio language,
      parserInstance ts = true ->
      loadLanguage ts languageId = Some language ->
      exists comments,
        extractCommentsWithTreeSitter ts text languageId minJapaneseRatio
          = Ok comments
        /\ forall r,
            In r comments <->
            exists node,
              In node (preorder (language text))
              /\ isCandidate languageId node = true
              /\ r = rangeOfNode languageId node
              /\ (minJapaneseRatio <= calculateJapaneseRatio (c_text r))%Q)
  /\ (forall text languageId r,
        In r (extractComments text languageId) <->
        exists pattern m,
          In pattern (patternsOf languageId)
          /\ In m (matches_from (S (List.length text)) pattern text 0)
          /\ r = rangeOfMatch m
          /\ (1 # 10 < calculateJapaneseRatio (c_text r))%Q).
Proof.
  split.
  - intros ts text languageId minJapaneseRatio language Hp Hl.
    unfold extractCommentsWithTreeSitter. rewrite Hp, Hl. simpl negb.
    eexists. split; [reflexivity|]. intros r.
    rewrite traverse_preorder by (simpl; lia).
    simpl app. rewrite in_flat_map. simpl flat_map. rewrite app_nil_r.
    split.
    + intros (node & Hin & Hr). exists node. split; [exact Hin|].
      unfold retainedNode in Hr.
      destruct (isCandidate languageId node) eqn:Ec; [|destruct Hr].
      destruct (atLeast _ _) eqn:Ea; simpl in Hr; [|destruct Hr].
      destruct Hr as [<-|[]]. repeat split. now apply atLeast_iff.
    + intros (node & Hin & Hc & -> & Hq). exists node. split; [exact Hin|].
      unfold retainedNode. rewrite Hc.
      apply atLeast_iff in Hq. simpl in Hq. rewrite Hq. now left.
  - intros text languageId r. rewrite extractComments_matches, in_flat_map.
    split.
    + intros (pattern & Hp & Hr). apply in_flat_map in Hr as (m & Hm & Hr).
      exists pattern, m. unfold retainedMatch in Hr.
      destruct (aboveTenth _) eqn:Ea; [|destruct Hr].
      destruct Hr as [<-|[]]. repeat split; try assumption.
      now apply aboveTenth_iff.
    + intros (pattern & m & Hp & Hm & -> & Hq). exists pattern.
      split; [exact Hp|]. apply in_flat_map. exists m. split; [exact Hm|].
      unfold retainedMatch. apply aboveTenth_iff in Hq. simpl in Hq.
      rewrite Hq. now left.
Qed.

Lemma extraction_thresholds_witness :
  exists comments,
    extractCommentsWithTreeSitter treeSitter tenthComment "javascript"
      defaultMinJapaneseRatio = Ok comments
    /\ In (rangeOfNode "javascript"
             (Node (js "comment") tenthComment 0 (strlen tenthComment) []))
          comments.
Proof.
  destruct extraction_thresholds as [Htree _].
  destruct (Htree treeSitter tenthComment "javascript"%string
              defaultMinJapaneseRatio commentOnly eq_refl eq_refl)
    as (comments & Hok & Hin).
  exists comments. split; [exact Hok|]. apply Hin.
  eexists. split; [right; left; reflexivity|].
  split; [reflexivity|]. split; [reflexivity|]. vm_compute. discriminate.
Defined.

(** C3 as the specification words it fails. With a threshold of 1/2 the
    regular-expression strategy retains a candidate of ratio 1/5; with the
    default threshold a candidate of ratio exactly 1/10 is retained by the
    syntax-tree strategy and discarded by the regular-expression strategy;
    and on the same comment the two strategies do not give the same text,
    the first one trimming it and the second one not. *)
Lemma extraction_claim_fails :
  (exists r,
      In r (extractComments fifthComment "javascript")
      /\ (calculateJapaneseRatio (c_text r) < 1 # 2)%Q)
  /\ (exists r,
        extractCommentsWithTreeSitter treeSitter tenthComment "javascript"
          defaultMinJapaneseRatio = Ok [r]
        /\ (calculateJapaneseRatio (c_text r) == 1 # 10)%Q
        /\ c_text r = removeMarkers tenthComment
        /\ extractComments tenthComment "javascript" = [])
  /\ sanitizeComment spacedComment "javascript" = js "あ"
  /\ removeMarkers spacedComment = js "あ ".
Proof.
  split; [|split; [|split; reflexivity]].
  - eexists. split; [left; reflexivity|]. vm_compute. reflexivity.
  - eexists. split; [reflexivity|]. repeat split.
Qed.

End ExtractionClaims.

(** ** The rules the scenarios do not name *)

Section RuleProperties.

Import Analyzer Grammar Rules Server.

Lemma Forall_flat_map_each {A B : Type} (P : B -> Prop) (f : A -> list B)
    (l : list A) :
  (forall x, Forall P (f x)) -> Forall P (flat_map f l).
Proof.
  intros H. induction l as [|x l IH]; simpl; [constructor|].
  apply Forall_app. split; [apply H|exact IH].
Qed.

Lemma flat_map_length_le {A B : Type} (f : A -> list B) (l : list A) :
  (forall x, (List.length (f x) <= 1)%nat) ->
  (List.length (flat_map f l) <= List.length l)%nat.
Proof.
  intros H. induction l as [|x l IH]; simpl; [lia|].
  rewrite length_app. specialize (H x). lia.
Qed.

(** X1: the adversative-ga rule gives exactly one diagnostic, over the whole
    sentence, for every sentence that has more particles of detail
    connective and dictionary form [ga] than [adversativeGaMax], in the
    order of the sentences, and nothing when its flag is false; it never
    gives more diagnostics than there are sentences. *)
Theorem adversativeGa_rule (text : jsstring) (sentences : list Sentence)
    (config : WakameConfig) :
  checkAdversativeGa text sentences config =
    (if adversativeGa (rules config)
     then flat_map
            (fun sentence =>
               if adversativeGaMax (rules config)
                  <? Z.of_nat (List.length
                                 (List.filter isAdversativeGa (tokens sentence)))
               then [mkDiagnostic text (start sentence) (end_ sentence)
                       (AdversativeGaMessage (adversativeGaMax (rules config))
                          (Z.of_nat
                             (List.length
                                (List.filter isAdversativeGa
                                   (tokens sentence)))))
                       "adversative-ga"]
               else [])
            sentences
     else [])
  /\ (List.length (checkAdversativeGa text sentences config)
      <= List.length sentences)%nat.
Proof.
  rewrite checkAdversativeGa_loop. split; [reflexivity|].
  destruct (adversativeGa (rules config)); simpl; [|lia].
  apply flat_map_length_le. intros sentence. unfold adversativeGa_of.
  destruct (_ <? _); simpl; lia.
Qed.

(** X2: the adjacent-particles rule gives exactly one diagnostic for every
    two immediately successive tokens of a sentence that are both particles,
    have the same (POS, POS detail 1) key and touch, the second starting at
    the offset where the first ends; the span goes from the start of the
    first to the end of the second. A token between two particles, or a
    gap between them, prevents the diagnostic. *)
Theorem adjacentParticles_rule (text : jsstring) (sentences : list Sentence)
    (config : WakameConfig) :
  checkAdjacentParticles text sentences config =
    if adjacentParticles (rules config)
    then flat_map
           (fun sentence =>
              flat_map
                (fun '(first, second) =>
                   if isParticle first && isParticle second
                      && str_eqb (getParticleKey second) (getParticleKey first)
                      && (offset second
                          =? offset first + strlen (surface first))
                   then [mkDiagnostic text (offset first)
                           (offset second + strlen (surface second))
                           AdjacentParticlesMessage "adjacent-particles"]
                   else [])
                (adjacent_pairs (tokens sentence)))
           sentences
    else [].
Proof.
  rewrite checkAdjacentParticles_loop.
  destruct (adjacentParticles (rules config)); [|reflexivity].
  apply flat_map_Forall_ext, Forall_forall. intros sentence _.
  unfold adjacentParticles_of. apply flat_map_Forall_ext, Forall_forall.
  intros [first second] _. reflexivity.
Qed.

(** X3: the conjunction-repeat rule looks at the conjunctions of all the
    sentences as one sequence: it gives one diagnostic for every two
    successive conjunctions with the same surface when the text between the
    end of the first and the start of the second has no newline. The
    sentence boundaries do not matter: the sentences and the one sentence
    made of all their tokens get the same diagnostics. *)
Theorem conjunctionRepeat_rule (text : jsstring) (sentences : list Sentence)
    (config : WakameConfig) :
  checkConjunctionRepeat text sentences config =
    (if conjunctionRepeat (rules config)
     then flat_map
            (fun '(first, second) =>
               if str_eqb (surface second) (surface first)
                  && negb (includes
                             (slice text
                                (offset first + strlen (surface first))
                                (offset second))
                             [0x0A])
               then [mkDiagnostic text (offset first)
                       (offset second + strlen (surface second))
                       (ConjunctionRepeatMessage (surface second))
                       "conjunction-repeat"]
               else [])
            (adjacent_pairs
               (List.filter isConjunction (flat_map tokens sentences)))
     else [])
  /\ checkConjunctionRepeat text sentences config =
     checkConjunctionRepeat text [merged sentences] config.
Proof.
  rewrite !checkConjunctionRepeat_loop. split.
  - destruct (conjunctionRepeat (rules config)); [|reflexivity].
    unfold conjunctionRepeat_of. apply flat_map_Forall_ext, Forall_forall.
    intros [first second] _. reflexivity.
  - destruct (conjunctionRepeat (rules config)); [|reflexivity].
    unfold conjunctionRepeat_of, merged. simpl. now rewrite app_nil_r.
Qed.

(** X4: the five rules that work per sentence treat the sentences
    independently: on two lists of sentences put one after the other, each
    gives its diagnostics for the first list followed by its diagnostics
    for the second. *)
Theorem rules_sentence_by_sentence (text : jsstring)
    (before after : list Sentence) (config : WakameConfig) :
  checkCommaLimit text (before ++ after) config =
    checkCommaLimit text before config ++ checkCommaLimit text after config
  /\ checkAdversativeGa text (before ++ after) config =
     checkAdversativeGa text before config
     ++ checkAdversativeGa text after config
  /\ checkDuplicateParticle text (before ++ after) config =
     checkDuplicateParticle text before config
     ++ checkDuplicateParticle text after config
  /\ checkAdjacentParticles text (before ++ after) config =
     checkAdjacentParticles text before config
     ++ checkAdjacentParticles text after config
  /\ checkRaDropping text (before ++ after) config =
     checkRaDropping text before config ++ checkRaDropping text after config.
Proof.
  rewrite !checkCommaLimit_loop, !checkAdversativeGa_loop,
    !checkDuplicateParticle_loop, !checkAdjacentParticles_loop,
    !checkRaDropping_loop.
  destruct (commaLimit (rules config)), (adversativeGa (rules config)),
    (duplicateParticle (rules config)), (adjacentParticles (rules config)),
    (raDropping (rules config));
    rewrite ?flat_map_app; repeat split.
Qed.

Lemma mkDiagnostic_warning (text : jsstring) (a b : Z) (msg : Message)
    (c : string) :
  In c ruleCodes ->
  severity (mkDiagnostic text a b msg c) = 2
  /\ source (mkDiagnostic text a b msg c) = "wakame"%string
  /\ In (code (mkDiagnostic text a b msg c)) ruleCodes.
Proof. intros H. repeat split. exact H. Qed.

Lemma checkGrammar_all_warnings (text : jsstring) (sentences : list Sentence)
    (config : WakameConfig) :
  Forall (fun d => severity d = 2 /\ source d = "wakame"%string
                   /\ In (code d) ruleCodes)
    (checkGrammar text sentences config).
Proof.
  assert (Hin : forall c, In c ruleCodes -> forall a b msg,
             Forall (fun d => severity d = 2 /\ source d = "wakame"%string
                              /\ In (code d) ruleCodes)
               [mkDiagnostic text a b msg c]).
  { intros c Hc a b msg. constructor; [|constructor].
    now apply mkDiagnostic_warning. }
  unfold checkGrammar. cbv zeta. rewrite app_nil_l.
  rewrite checkCommaLimit_loop, checkAdversativeGa_loop,
    checkDuplicateParticle_loop, checkAdjacentParticles_loop,
    checkConjunctionRepeat_loop, checkRaDropping_loop.
  repeat (apply Forall_app; split);
    match goal with
    | |- Forall _ (if ?b then _ else _) => destruct b; [|constructor]
    end.
  - apply Forall_flat_map_each. intros s. unfold commaLimit_of, wholeSentence.
    destruct (_ <? _); [apply Hin; simpl; tauto|constructor].
  - apply Forall_flat_map_each. intros s.
    unfold adversativeGa_of, wholeSentence.
    destruct (_ <? _); [apply Hin; simpl; tauto|constructor].
  - apply Forall_flat_map_each. intros s. unfold duplicateParticle_of.
    apply Forall_flat_map_each. intros [a b]. unfold duplicate_of_pair, spanning.
    destruct (sameParticle a b); [apply Hin; simpl; tauto|constructor].
  - apply Forall_flat_map_each. intros s. unfold adjacentParticles_of.
    apply Forall_flat_map_each. intros [a b]. unfold adjacent_of_pair, spanning.
    destruct (_ && _); [apply Hin; simpl; tauto|constructor].
  - unfold conjunctionRepeat_of.
    apply Forall_flat_map_each. intros [a b].
    unfold conjunction_of_pair, spanning.
    destruct (_ && _); [apply Hin; simpl; tauto|constructor].
  - apply Forall_flat_map_each. intros s. unfold raDropping_of.
    apply Forall_app. split.
    + apply List.Forall_forall. intros d Hd.
      apply in_map_iff in Hd as (t & <- & _).
      unfold raSingle_of. apply mkDiagnostic_warning. simpl. tauto.
    + apply Forall_flat_map_each. intros [a b]. unfold raPair_of, spanning.
      destruct (_ && _); [apply Hin; simpl; tauto|constructor].
Qed.

(** X5: every diagnostic of [checkGrammar] is a warning (severity 2) of
    source [wakame] with the code of one of the six rules; so the severity
    filter of the server keeps all of them when [warningMinSeverity] is 2 or
    more and none of them when it is 1 or less. *)
Theorem checkGrammar_warnings (text : jsstring) (sentences : list Sentence)
    (config : WakameConfig) (warningMinSeverity : Z) :
  Forall (fun d => severity d = 2 /\ source d = "wakame"%string
                   /\ In (code d) ruleCodes)
    (checkGrammar text sentences config)
  /\ filterBySeverity warningMinSeverity (checkGrammar text sentences config)
     = if 2 <=? warningMinSeverity
       then checkGrammar text sentences config
       else [].
Proof.
  pose proof (checkGrammar_all_warnings text sentences config) as H.
  split; [exact H|]. unfold filterBySeverity.
  induction H as [|d l (Hs & _) _ IH]; simpl.
  - now destruct (2 <=? warningMinSeverity).
  - rewrite Hs, IH. now destruct (2 <=? warningMinSeverity).
Qed.

End RuleProperties.

(** ** Offsets and positions *)

Section Positions.

Import Grammar Server.

Lemma str_eqb_single (c : Z) : str_eqb [c] [0x0A] = (c =? 0x0A).
Proof.
  unfold str_eqb. destruct (Z.eqb_spec c 0x0A) as [->|Hne].
  - now apply bool_decide_eq_true_2.
  - apply bool_decide_eq_false_2. congruence.
Qed.

Lemma countNewlines_cons (c : Z) (s : jsstring) :
  countNewlines (c :: s) = (if c =? 0x0A then 1 else 0) + countNewlines s.
Proof.
  unfold countNewlines, strlen. simpl.
  destruct (c =? 0x0A); simpl List.length; lia.
Qed.

Lemma offsetToPosition_loop_line (offset : Z) (n : nat) :
  forall s, (List.length s <= n)%nat ->
  forall ln ch cur,
    line (offsetToPosition_loop (chars s) offset ln ch cur) =
      ln + countNewlines (take (Z.to_nat (offset - cur)) s).
Proof.
  induction n as [|n IH]; intros s Hn ln ch cur.
  - destruct s; [|simpl in Hn; lia]. simpl. rewrite take_nil.
    unfold countNewlines, strlen. simpl. lia.
  - destruct s as [|c r].
    { simpl. rewrite take_nil. unfold countNewlines, strlen. simpl. lia. }
    simpl in Hn.
    assert (Hsingle :
      line (offsetToPosition_loop ([c] :: chars r) offset ln ch cur) =
        ln + countNewlines (take (Z.to_nat (offset - cur)) (c :: r))).
    { simpl. destruct (Z.geb_spec cur offset) as [Hge|Hlt].
      - replace (Z.to_nat (offset - cur)) with 0%nat by lia. simpl.
        unfold countNewlines, strlen. simpl. lia.
      - replace (Z.to_nat (offset - cur))
          with (S (Z.to_nat (offset - (cur + 1)))) by lia.
        simpl take. rewrite countNewlines_cons, str_eqb_single.
        change (strlen [c]) with 1.
        destruct (c =? 0x0A); rewrite IH by lia; lia. }
    destruct r as [|d r']; [exact Hsingle|].
    change (chars (c :: d :: r'))
      with (if isHighSurrogate c && isLowSurrogate d
            then [c; d] :: chars r' else [c] :: chars (d :: r')).
    destruct (isHighSurrogate c && isLowSurrogate d) eqn:Epair;
      [|exact Hsingle].
    apply andb_true_iff in Epair as [Hc Hd].
    unfold isHighSurrogate, isLowSurrogate, in_range in Hc, Hd.
    apply andb_true_iff in Hc as [Hc _]. apply andb_true_iff in Hd as [Hd _].
    apply Z.leb_le in Hc, Hd.
    simpl. destruct (Z.geb_spec cur offset) as [Hge|Hlt].
    + replace (Z.to_nat (offset - cur)) with 0%nat by lia. simpl.
      unfold countNewlines, strlen. simpl. lia.
    + change (str_eqb [c; d] [10]) with (bool_decide ([c; d] = [10])).
      rewrite bool_decide_eq_false_2 by discriminate.
      change (strlen [c; d]) with 2. simpl in Hn. rewrite IH by lia.
      destruct (Z.eq_dec (offset - cur) 1) as [E1|E1].
      * rewrite E1. replace (Z.to_nat (offset - (cur + 2))) with 0%nat by lia.
        simpl. rewrite countNewlines_cons.
        destruct (Z.eqb_spec c 10); [lia|]. reflexivity.
      * replace (Z.to_nat (offset - cur))
          with (S (S (Z.to_nat (offset - (cur + 2))))) by lia.
        simpl take. rewrite !countNewlines_cons.
        destruct (Z.eqb_spec c 10); [lia|].
        destruct (Z.eqb_spec d 10); [lia|]. lia.
Qed.

(** X6: for every text and every offset, the line [offsetToPosition] gives
    is the number of newlines among the code units before the offset; an
    offset of 0 or less gives line 0, an offset past the end the number of
    newlines of the text. *)
Theorem offsetToPosition_line (text : jsstring) (offset : Z) :
  line (offsetToPosition text offset) =
    countNewlines (take (Z.to_nat offset) text).
Proof.
  unfold offsetToPosition.
  rewrite (offsetToPosition_loop_line offset (List.length text)) by lia.
  now rewrite Z.sub_0_r.
Qed.

Lemma chars_bmp (s : jsstring) :
  Forall (fun c => isHighSurrogate c = false) s ->
  chars s = map (fun c => [c]) s.
Proof.
  induction 1 as [|c r Hc _ IH]; [reflexivity|].
  destruct r as [|d r']; [reflexivity|].
  change (chars (c :: d :: r'))
    with (if isHighSurrogate c && isLowSurrogate d
          then [c; d] :: chars r' else [c] :: chars (d :: r')).
  rewrite Hc. simpl andb. cbv iota. now rewrite IH.
Qed.

Lemma offsetToPosition_loop_character (offset : Z) (s : jsstring) :
  forall ln ch cur,
    exists pre cols,
      take (Z.to_nat (offset - cur)) s = pre ++ cols
      /\ Forall (fun c => c <> 0x0A) cols
      /\ ((pre = []
           /\ character
                (offsetToPosition_loop (map (fun c => [c]) s) offset ln ch cur)
              = ch + strlen cols)
          \/ (last pre = Some 0x0A
              /\ character
                   (offsetToPosition_loop (map (fun c => [c]) s) offset
                      ln ch cur)
                 = strlen cols)).
Proof.
  induction s as [|c r IH]; intros ln ch cur.
  - exists [], []. rewrite take_nil. simpl.
    repeat split; [constructor|]. left. split; [reflexivity|].
    unfold strlen. simpl. lia.
  - simpl. destruct (Z.geb_spec cur offset) as [Hge|Hlt].
    + exists [], []. replace (Z.to_nat (offset - cur)) with 0%nat by lia.
      simpl. repeat split; [constructor|]. left. split; [reflexivity|].
      unfold strlen. simpl. lia.
    + replace (Z.to_nat (offset - cur))
        with (S (Z.to_nat (offset - (cur + 1)))) by lia.
      simpl take. rewrite str_eqb_single. change (strlen [c]) with 1.
      destruct (Z.eqb_spec c 0x0A) as [->|Hne].
      * destruct (IH (ln + 1) 0 (cur + 1))
          as (pre & cols & -> & Hcols & [[-> Hch]|[Hl Hch]]).
        -- exists [0x0A], cols. repeat split; [exact Hcols|].
           right. split; [reflexivity|]. rewrite Hch. lia.
        -- exists (0x0A :: pre), cols. repeat split; [exact Hcols|].
           right. split; [|exact Hch].
           destruct pre; [discriminate|exact Hl].
      * destruct (IH ln (ch + 1) (cur + 1))
          as (pre & cols & -> & Hcols & [[-> Hch]|[Hl Hch]]).
        -- exists [], (c :: cols). repeat split; [now constructor|].
           left. split; [reflexivity|]. rewrite Hch.
           unfold strlen. simpl List.length. lia.
        -- exists (c :: pre), cols. repeat split; [exact Hcols|].
           right. split; [|exact Hch].
           destruct pre; [discriminate|exact Hl].
Qed.

Lemma countNewlines_none (cols : jsstring) :
  Forall (fun c => c <> 0x0A) cols -> countNewlines cols = 0.
Proof.
  induction 1 as [|c l Hc _ IH]; [reflexivity|].
  rewrite countNewlines_cons, IH. destruct (Z.eqb_spec c 0x0A); [congruence|lia].
Qed.

Lemma countNewlines_app (a b : jsstring) :
  countNewlines (a ++ b) = countNewlines a + countNewlines b.
Proof.
  induction a as [|c a IH]; [unfold countNewlines at 2, strlen; simpl; lia|].
  simpl app. rewrite !countNewlines_cons, IH. lia.
Qed.

(** X7: in a text without surrogate pairs, the code units before the offset
    split into the lines that are complete, ending with a newline, and the
    columns after the last newline; the position [offsetToPosition] gives
    has the number of newlines as line and the number of columns as
    character. *)
Theorem offsetToPosition_columns (text : jsstring) (offset : Z) :
  Forall (fun c => isHighSurrogate c = false) text ->
  exists pre cols,
    take (Z.to_nat offset) text = pre ++ cols
    /\ Forall (fun c => c <> 0x0A) cols
    /\ (pre = [] \/ last pre = Some 0x0A)
    /\ offsetToPosition text offset =
         {| line := countNewlines pre; character := strlen cols |}.
Proof.
  intros Hbmp.
  pose proof (offsetToPosition_line text offset) as Hline.
  unfold offsetToPosition in *. rewrite (chars_bmp text Hbmp) in *.
  destruct (offsetToPosition_loop_character offset text 0 0 0)
    as (pre & cols & Htake & Hcols & Hch).
  rewrite Z.sub_0_r in Htake. exists pre, cols.
  split; [exact Htake|]. split; [exact Hcols|].
  rewrite Htake, countNewlines_app, (countNewlines_none cols Hcols) in Hline.
  destruct (offsetToPosition_loop (map (fun c => [c]) text) offset 0 0 0)
    as [l c]. simpl in *.
  destruct Hch as [[-> Hc]|[Hl Hc]].
  - split; [now left|]. f_equal; lia.
  - split; [now right|]. f_equal; lia.
Qed.

Lemma offsetToPosition_columns_witness :
  exists pre cols,
    take 2 (js "猫
犬。") = pre ++ cols
    /\ offsetToPosition (js "猫
犬。") 2 = {| line := countNewlines pre; character := strlen cols |}.
Proof.
  destruct (offsetToPosition_columns (js "猫
犬。") 2) as (pre & cols & Ht & _ & _ & Hp).
  - vm_compute. repeat constructor.
  - exists pre, cols. split; [exact Ht|exact Hp].
Defined.

End Positions.

(** ** More on the segmenter and the tokenizer *)

Section AnalyzerProperties.

Import Analyzer Shape Scenario.

Lemma split_from_shape (text : jsstring) (tokens : list Token) :
  forall cur z,
    Forall (fun t => isSentenceEnd t = false) cur ->
    shaped (split_from text cur z tokens)
    /\ List.length (split_from text cur z tokens) =
       (List.length (List.filter isSentenceEnd tokens)
        + trailing (cur ++ tokens))%nat.
Proof.
  induction tokens as [|t tokens IH]; intros cur z Hcur.
  - simpl. unfold split_finish, trailing. simpl. rewrite app_nil_r.
    destruct (last cur) as [l|] eqn:El; simpl.
    + assert (Hl : isSentenceEnd l = false).
      { apply last_Some in El as [pre ->].
        apply Forall_app in Hcur as [_ Hl]. now inversion Hl. }
      rewrite Hl. split; [|reflexivity]. right. split; [|exact Hcur].
      intros Hc. simpl in Hc. subst cur. discriminate.
    + split; [exact I|reflexivity].
  - simpl split_from. simpl List.filter.
    destruct (isSentenceEnd t) eqn:Et.
    + destruct (IH [] (offset t + strlen (surface t))) as [Hs Hl];
        [constructor|].
      split.
      * assert (Hterm : terminated
                  {| text := slice text z (offset t + strlen (surface t));
                     start := z;
                     end_ := offset t + strlen (surface t);
                     Analyzer.tokens := cur ++ [t] |}).
        { exists cur, t. auto. }
        simpl. destruct (split_from text [] _ tokens); [now left|].
        split; [exact Hterm|exact Hs].
      * simpl. rewrite Hl. simpl app. f_equal.
        unfold trailing. rewrite last_app_cons.
        destruct tokens as [|t' tokens']; simpl; [now rewrite Et|].
        reflexivity.
    + destruct (IH (cur ++ [t]) z) as [Hs Hl].
      { apply Forall_app. split; [exact Hcur|]. now repeat constructor. }
      rewrite <- app_assoc in Hl. simpl in Hl. now split.
Qed.

(** X8: every sentence [splitSentences] gives ends with a terminator and
    has no terminator before it, except that the last sentence may have no
    terminator at all; there are as many sentences as terminators among the
    tokens, plus one when the last token is not a terminator; in
    particular no token gives no sentence. *)
Theorem splitSentences_terminators (text : jsstring) (tokens : list Token) :
  shaped (splitSentences text tokens)
  /\ List.length (splitSentences text tokens) =
     (List.length (List.filter isSentenceEnd tokens) + trailing tokens)%nat
  /\ (splitSentences text tokens = [] <-> tokens = []).
Proof.
  rewrite splitSentences_split_from.
  destruct (split_from_shape text tokens [] 0) as [Hs Hl]; [constructor|].
  split; [exact Hs|]. split; [exact Hl|].
  split.
  - intros He. pose proof (split_from_tokens text tokens [] 0) as Ht.
    rewrite He in Ht. simpl in Ht. now symmetry.
  - now intros ->.
Qed.

Lemma tokens_from_readsBack (kts : list KuromojiToken) :
  forall pre post,
    Forall (readsBack (pre ++ flat_map surface_form kts ++ post))
      (tokens_from (pre ++ flat_map surface_form kts ++ post)
         (strlen pre) kts).
Proof.
  induction kts as [|kt kts IH]; intros pre post; [constructor|].
  destruct (tokens_from_cons (pre ++ flat_map surface_form (kt :: kts) ++ post)
              (strlen pre) kt kts) as (tok & -> & Ho & Hs).
  assert (Hhere : offset tok = strlen pre).
  { rewrite Ho. unfold offsetFor. simpl flat_map. rewrite <- app_assoc.
    rewrite indexOf_here. pose proof (strlen_nonneg pre).
    destruct (Z.geb_spec (strlen pre) 0); [reflexivity|lia]. }
  constructor.
  - unfold readsBack. rewrite Hhere, Hs. simpl flat_map.
    rewrite <- !app_assoc. pose proof (strlen_nonneg pre).
    pose proof (strlen_nonneg (flat_map surface_form kts)).
    pose proof (strlen_nonneg post).
    split; [lia|]. split; [rewrite !strlen_app; lia|apply slice_middle].
  - rewrite Hhere, Hs, <- strlen_app.
    specialize (IH (pre ++ surface_form kt) post).
    simpl flat_map. rewrite <- !app_assoc in *. exact IH.
Qed.

(** X9: when the surfaces the backend returns concatenate to the text, every
    token [tokenize] gives lies in the text and the slice of the text from
    its offset, of the length of its surface, is its surface. *)
Theorem tokenize_readsBack (st : State) (tk : Tokenizer) (text : jsstring) :
  tokenizer st = Some tk ->
  text = flat_map surface_form (tk text) ->
  exists tokens,
    fst (tokenize st text) = Ok tokens /\ Forall (readsBack text) tokens.
Proof.
  intros Htk Htext. unfold tokenize. rewrite Htk. eexists.
  split; [reflexivity|]. unfold tokenize_tokens. rewrite tokenize_loop.
  simpl app. pose proof (tokens_from_readsBack (tk text) [] []) as H.
  simpl in H. rewrite app_nil_r, <- Htext in H. exact H.
Qed.

Lemma tokenize_readsBack_witness :
  exists tokens,
    fst (tokenize (readyWith unitTokenizer) commaText) = Ok tokens
    /\ Forall (readsBack commaText) tokens.
Proof.
  apply (tokenize_readsBack (readyWith unitTokenizer) unitTokenizer commaText).
  - reflexivity.
  - vm_compute. reflexivity.
Defined.

Lemma byteLength_fold_bounds (n : nat) :
  forall s, (List.length s <= n)%nat ->
  forall a,
    a + strlen s
    <= fold_left (fun k ch => k + utf8_char_length ch) (chars s) a
    <= a + 3 * strlen s.
Proof.
  induction n as [|n IH]; intros s Hn a.
  - destruct s; [|simpl in Hn; lia]. unfold strlen. simpl. lia.
  - destruct s as [|c r]; [unfold strlen; simpl; lia|]. simpl in Hn.
    assert (Hsingle :
      a + strlen (c :: r)
      <= fold_left (fun k ch => k + utf8_char_length ch) ([c] :: chars r) a
      <= a + 3 * strlen (c :: r)).
    { cbn [fold_left]. specialize (IH r ltac:(lia) (a + utf8_char_length [c])).
      assert (1 <= utf8_char_length [c] <= 3).
      { simpl. destruct (c <? 128); [lia|]. destruct (c <? 2048); lia. }
      unfold strlen in *. cbn [List.length]. lia. }
    destruct r as [|d r']; [exact Hsingle|].
    change (chars (c :: d :: r'))
      with (if isHighSurrogate c && isLowSurrogate d
            then [c; d] :: chars r' else [c] :: chars (d :: r')).
    destruct (isHighSurrogate c && isLowSurrogate d); [|exact Hsingle].
    cbn [fold_left]. simpl in Hn.
    specialize (IH r' ltac:(lia) (a + utf8_char_length [c; d])).
    change (utf8_char_length [c; d]) with 4 in *.
    unfold strlen in *. cbn [List.length]. lia.
Qed.

Lemma byteLength_ascii (s : jsstring) :
  Forall (fun c => c < 0x80) s -> byteLength s = strlen s.
Proof.
  intros Hs. unfold byteLength. rewrite chars_bmp.
  - assert (Hfold : forall a,
              fold_left (fun k ch => k + utf8_char_length ch)
                (map (fun c => [c]) s) a = a + strlen s).
    { induction Hs as [|c r Hc _ IH]; intros a;
        [unfold strlen; simpl; lia|].
      cbn [map fold_left]. rewrite IH.
      change (utf8_char_length [c])
        with (if c <? 128 then 1 else if c <? 2048 then 2 else 3).
      destruct (Z.ltb_spec c 128); [|lia].
      unfold strlen. cbn [List.length]. lia. }
    rewrite Hfold. lia.
  - eapply List.Forall_impl; [|exact Hs]. intros c Hc. simpl in Hc.
    unfold isHighSurrogate, in_range.
    destruct (Z.leb_spec 55296 c); [lia|reflexivity].
Qed.

Lemma tokens_from_length (text : jsstring) (kts : list KuromojiToken) :
  forall cursor,
    Forall (fun t => Analyzer.length t = byteLength (surface t))
      (tokens_from text cursor kts).
Proof.
  induction kts as [|kt kts IH]; intros cursor; [constructor|].
  cbn [tokens_from tokenize_step fst app]. constructor; [reflexivity|apply IH].
Qed.

(** X10: the [length] of a token is the number of bytes of its surface in
    UTF-8, not its number of code units: it is never less than the length
    of the surface and never more than three times it, and the two are
    equal when the surface is ASCII. *)
Theorem token_length_is_bytes (text : jsstring) (kts : list KuromojiToken) :
  Forall
    (fun t =>
       Analyzer.length t = byteLength (surface t)
       /\ strlen (surface t) <= Analyzer.length t <= 3 * strlen (surface t)
       /\ (Forall (fun c => c < 0x80) (surface t) ->
           Analyzer.length t = strlen (surface t)))
    (tokenize_tokens text kts).
Proof.
  unfold tokenize_tokens. rewrite tokenize_loop. simpl app.
  eapply List.Forall_impl; [|apply tokens_from_length].
  intros t Ht. split; [exact Ht|]. rewrite Ht. split.
  - pose proof (byteLength_fold_bounds (List.length (surface t)) (surface t)
                  ltac:(lia) 0) as H.
    unfold byteLength. lia.
  - apply byteLength_ascii.
Qed.

(** X11: the first call of [initializeTokenizer] decides: after it, through
    any calls of [initializeTokenizer] and [tokenize], the tokenizer is the
    one the first call built, or none if the builder failed, and every later
    call of [initializeTokenizer] ends as the first did, whatever the
    builder would give. A failed initialization is never tried again: the
    later calls throw the error of the first. *)
Theorem initialization_decided_once (st : State) (first : result Tokenizer) :
  tokenizer st = None ->
  initPromise st = None ->
  fst (initializeTokenizer first st) =
    match first with Ok _ => Ok tt | Throw err => Throw err end
  /\ forall st',
      reachableFrom (snd (initializeTokenizer first st)) st' ->
      tokenizer st' =
        match first with Ok tk => Some tk | Throw _ => None end
      /\ forall build,
          fst (initializeTokenizer build st') =
            match first with Ok _ => Ok tt | Throw err => Throw err end.
Proof.
  intros Htk Hp.
  assert (Hfirst : initializeTokenizer first st =
            (match first with Ok _ => Ok tt | Throw err => Throw err end,
             {| tokenizer :=
                  match first with Ok tk => Some tk | Throw _ => None end;
                initPromise := Some first;
                backendCalls := backendCalls st |})).
  { unfold initializeTokenizer. rewrite Htk, Hp. now destruct first. }
  rewrite Hfirst. split; [reflexivity|]. simpl snd.
  intros st' Hr.
  assert (Hinv : tokenizer st' =
                   match first with Ok tk => Some tk | Throw _ => None end
                 /\ initPromise st' = Some first).
  { induction Hr as [|build st1 _ [IHt IHp]|text st1 _ [IHt IHp]].
    - split; reflexivity.
    - unfold initializeTokenizer. rewrite IHt, IHp.
      destruct first; simpl; rewrite ?IHt, ?IHp; split; reflexivity.
    - unfold tokenize. rewrite IHt.
      destruct first; simpl; rewrite ?IHt, ?IHp; split; reflexivity. }
  destruct Hinv as [Ht Hi]. split; [exact Ht|].
  intros build. unfold initializeTokenizer. rewrite Ht, Hi.
  now destruct first.
Qed.

Lemma initialization_decided_once_witness :
  fst (initializeTokenizer (Ok unitTokenizer)
         (snd (initializeTokenizer (Throw "no dictionary") initialState)))
  = Throw "no dictionary"%string.
Proof.
  destruct (initialization_decided_once initialState (Throw "no dictionary")
              eq_refl eq_refl) as [_ Hlater].
  apply (Hlater _ (from_here _)).
Defined.

End AnalyzerProperties.

(** ** More on the Wikipedia cache *)

Section CacheProperties.

Import Wikipedia Cache.

(** X12: a lookup touches the entry of its own term only: the entry of
    every other term is as before, and the log of requests is as before or
    has the term added once at its end. *)
Theorem lookup_touches_one_term (env : Env) (term other : jsstring)
    (st : State) :
  other <> term ->
  cache (snd (fetchWikipediaSummary env term st)) !! other = cache st !! other
  /\ (requests (snd (fetchWikipediaSummary env term st)) = requests st
      \/ requests (snd (fetchWikipediaSummary env term st))
         = requests st ++ [term]).
Proof.
  intros Hne. unfold fetchWikipediaSummary.
  assert (Hmiss :
    forall r : option jsstring * State,
      r = (if negb (encodable term) then (None, st)
           else
             match fetched env with
             | FetchRejected => (None, request term st)
             | Response httpStatus body =>
                 if httpStatus =? 404 then
                   (None,
                    cacheSet term
                      {| summary := None; status := not_found;
                         timestamp := nowAtStore env |} (request term st))
                 else if negb (ok httpStatus) then
                   (None,
                    cacheSet term
                      {| summary := None; status := error;
                         timestamp := nowAtStore env |} (request term st))
                 else
                   match body with
                   | JsonRejected => (None, request term st)
                   | JsonData extract =>
                       (extractOrNull extract,
                        cacheSet term
                          {| summary := extractOrNull extract;
                             status := success;
                             timestamp := nowAtStore env |}
                          (request term st))
                   end
             end) ->
      cache (snd r) !! other = cache st !! other
      /\ (requests (snd r) = requests st
          \/ requests (snd r) = requests st ++ [term])).
  { intros r ->.
    destruct (negb (encodable term)); [simpl; auto|].
    destruct (fetched env) as [|httpStatus body]; [simpl; auto|].
    destruct (httpStatus =? 404);
      [simpl; rewrite lookup_insert_ne by congruence; auto|].
    destruct (negb (ok httpStatus));
      [simpl; rewrite lookup_insert_ne by congruence; auto|].
    destruct body; simpl; rewrite ?lookup_insert_ne by congruence; auto. }
  destruct (cache st !! term) as [cached|]; [|now apply Hmiss].
  destruct (fresh env cached); [simpl; auto|now apply Hmiss].
Qed.

Lemma lookup_touches_one_term_witness :
  cache (snd (fetchWikipediaSummary catNotFound (js "猫") initialState))
    !! js "犬" = None.
Proof.
  destruct (lookup_touches_one_term catNotFound (js "猫") (js "犬")
              initialState) as [Hc _].
  - discriminate.
  - rewrite Hc. reflexivity.
Defined.



(** X14: an entry that is one hour old or more is not served: the lookup
    asks the network as if there were no entry, returns what a lookup
    without the entry returns, and afterwards the entry of the term is
    either the old one, when nothing was stored, or one stamped with the
    time of the store. *)
Theorem stale_entry_is_refetched (term : jsstring) (st : State) (env : Env)
    (cached : WikipediaCacheEntry) :
  encodable term = true ->
  cache st !! term = Some cached ->
  CACHE_EXPIRY_MS <= nowAtLookup env - timestamp cached ->
  let st1 := snd (fetchWikipediaSummary env term st) in
  requests st1 = requests st ++ [term]
  /\ fst (fetchWikipediaSummary env term st) =
     fst (fetchWikipediaSummary env term
            {| cache := delete term (cache st); requests := requests st |})
  /\ (cache st1 !! term = Some cached
      \/ exists entry,
           cache st1 !! term = Some entry
           /\ timestamp entry = nowAtStore env).
Proof.
  intros He Hc Hold st1. subst st1.
  assert (Hm : missed env term st).
  { unfold missed. rewrite Hc. unfold fresh. apply Z.ltb_ge. lia. }
  assert (Hm' : missed env term
                  {| cache := delete term (cache st);
                     requests := requests st |}).
  { unfold missed. simpl. now rewrite lookup_delete_eq. }
  rewrite (fetch_miss env term st Hm He), (fetch_miss env term _ Hm' He).
  destruct (fetched env) as [|httpStatus body]; simpl; [auto|].
  destruct (httpStatus =? 404); simpl.
  { rewrite lookup_insert_eq. repeat split. right. eauto. }
  destruct (negb (ok httpStatus)); simpl.
  { rewrite lookup_insert_eq. repeat split. right. eauto. }
  destruct body; simpl; [auto|].
  rewrite lookup_insert_eq. repeat split. right. eauto.
Qed.

Lemma stale_entry_is_refetched_witness :
  requests
    (snd (fetchWikipediaSummary
            {| nowAtLookup := 1200 + 3600000; fetched := FetchRejected;
               nowAtStore := 0 |}
            (js "猫")
            (snd (fetchWikipediaSummary catNotFound (js "猫") initialState))))
  = [js "猫"; js "猫"].
Proof.
  destruct (stale_entry_is_refetched (js "猫")
              (snd (fetchWikipediaSummary catNotFound (js "猫") initialState))
              {| nowAtLookup := 1200 + 3600000; fetched := FetchRejected;
                 nowAtStore := 0 |}
              {| summary := None; status := not_found; timestamp := 1200 |})
    as (Hr & _).
  - reflexivity.
  - reflexivity.
  - vm_compute. discriminate.
  - exact Hr.
Defined.

(** X15: what fails without an HTTP status leaves the cache as it was: a
    term with a lone surrogate, which cannot be put in the URL, returns null
    without a request; a response of status 2xx whose body cannot be read
    returns null after the request. *)
Theorem failures_are_not_cached (term : jsstring) (st : State) (env : Env) :
  missed env term st ->
  (encodable term = false ->
   fetchWikipediaSummary env term st = (None, st))
  /\ (forall httpStatus,
        encodable term = true ->
        fetched env = Response httpStatus JsonRejected ->
        ok httpStatus = true ->
        fst (fetchWikipediaSummary env term st) = None
        /\ cache (snd (fetchWikipediaSummary env term st)) = cache st
        /\ requests (snd (fetchWikipediaSummary env term st))
           = requests st ++ [term]).
Proof.
  intros Hm. split.
  - intros He. unfold fetchWikipediaSummary, missed in *. rewrite He. simpl.
    destruct (cache st !! term); [now rewrite Hm|reflexivity].
  - intros httpStatus He Hf Hok.
    rewrite (fetch_miss env term st Hm He), Hf, Hok.
    assert (H404 : (httpStatus =? 404) = false).
    { unfold ok, in_range in Hok. apply andb_true_iff in Hok as [_ Hhi].
      apply Z.leb_le in Hhi. apply Z.eqb_neq. lia. }
    rewrite H404. simpl. repeat split.
Qed.

Lemma failures_are_not_cached_witness :
  fetchWikipediaSummary catNotFound [0xD800] initialState
  = (None, initialState).
Proof.
  destruct (failures_are_not_cached [0xD800] initialState catNotFound)
    as [Hlone _].
  - exact I.
  - apply Hlone. reflexivity.
Defined.

(** X16: after [clearCache] the cache has no entry, whatever it had, so the
    statistics give size 0 and every lookup of a term that can be put in a
    URL asks the network; the statistics never count hits or misses. *)
Theorem clearCache_forgets (st : State) :
  c_size (getCacheStats (clearCache st)) = 0
  /\ hits (getCacheStats st) = 0
  /\ misses (getCacheStats st) = 0
  /\ forall env term,
      encodable term = true ->
      requests (snd (fetchWikipediaSummary env term (clearCache st)))
      = requests st ++ [term].
Proof.
  repeat split.
  intros env term He.
  assert (Hm : missed env term (clearCache st)).
  { unfold missed, clearCache. simpl. now rewrite lookup_empty. }
  rewrite (fetch_miss env term _ Hm He).
  destruct (fetched env) as [|httpStatus body]; [reflexivity|].
  destruct (httpStatus =? 404); [reflexivity|].
  destruct (negb (ok httpStatus)); [reflexivity|].
  destruct body; reflexivity.
Qed.

End CacheProperties.

(** ** More on comment extraction *)

Section ExtractionProperties.

Import Analyzer Extract Ranges Scenario.

Lemma starts_with_split (s t : jsstring) :
  starts_with s t = true -> t = s ++ drop (List.length s) t.
Proof.
  revert t. induction s as [|c s IH]; intros [|d t] H; simpl in *;
    try reflexivity; try discriminate.
  apply andb_true_iff in H as [Hc H]. apply Z.eqb_eq in Hc. subst d.
  f_equal. now apply IH.
Qed.

Lemma takeWhile_split (p : Z -> bool) (s : jsstring) :
  s = takeWhile p s ++ drop (List.length (takeWhile p s)) s.
Proof.
  induction s as [|c s IH]; simpl; [reflexivity|].
  destruct (p c); simpl; [now f_equal|reflexivity].
Qed.

Lemma indexOf_occurs (text s : jsstring) (pos : Z) :
  0 <= pos ->
  indexOf text s pos <> -1 ->
  starts_with s (drop (Z.to_nat (indexOf text s pos)) text) = true.
Proof.
  intros Hpos. unfold indexOf. pose proof (strlen_nonneg text) as Hlen.
  rewrite Z.max_l by lia. set (k := Z.min pos (strlen text)).
  assert (Hk : 0 <= k <= strlen text) by (unfold k; lia).
  destruct (find_from_spec s (drop (Z.to_nat k) text) k)
    as [[-> _]|(n & Hn & -> & Hyes & _)]; [congruence|].
  intros _. rewrite drop_drop in Hyes.
  replace (Z.to_nat (k + Z.of_nat n)) with (Z.to_nat k + n)%nat by lia.
  exact Hyes.
Qed.

Lemma slice_at (text : jsstring) (index : Z) (piece rest : jsstring) :
  0 <= index <= strlen text ->
  drop (Z.to_nat index) text = piece ++ rest ->
  slice text index (index + strlen piece) = piece.
Proof.
  intros Hi Hd.
  assert (Htext : text = take (Z.to_nat index) text ++ piece ++ rest)
    by (rewrite <- Hd; symmetry; apply take_drop).
  assert (Hpre : strlen (take (Z.to_nat index) text) = index).
  { unfold strlen in *. rewrite length_take. lia. }
  pose proof (slice_middle (take (Z.to_nat index) text) piece rest) as H.
  rewrite <- Htext, Hpre in H. exact H.
Qed.

Lemma exec_indexes (pattern : Pattern) (text : jsstring) (lastIndex : Z)
    (index : Z) (original : jsstring) :
  wellFormed pattern ->
  0 <= lastIndex ->
  exec pattern text lastIndex = Some (index, original) ->
  indexes text (rangeOfMatch (index, original)).
Proof.
  intros Hwf Hpos He. pose proof (strlen_nonneg text) as Hlen.
  destruct (exec_progress _ _ _ _ _ Hwf Hpos He) as (Hlo & Hne & Hhi).
  unfold indexes, rangeOfMatch. simpl.
  split; [lia|]. split; [lia|]. split; [exact Hhi|].
  destruct pattern as [marker|opening closing]; simpl in He.
  - destruct (Z.eqb_spec (indexOf text marker lastIndex) (-1)) as [|Hf];
      [discriminate|].
    injection He as <- <-.
    pose proof (indexOf_occurs text marker lastIndex Hpos Hf) as Ho.
    apply starts_with_split in Ho. rewrite drop_drop in Ho.
    set (index := indexOf text marker lastIndex) in *.
    set (rest := drop (Z.to_nat (index + strlen marker)) text).
    assert (Hrest : drop (Z.to_nat index + List.length marker) text = rest).
    { unfold rest. f_equal. unfold strlen. lia. }
    rewrite Hrest in Ho.
    apply (slice_at text index _
             (drop (List.length
                      (takeWhile (fun c => negb (isLineTerminator c)) rest))
                rest)); [lia|].
    rewrite Ho at 1. rewrite <- app_assoc. f_equal. apply takeWhile_split.
  - destruct (Z.eqb_spec (indexOf text opening lastIndex) (-1)) as [|Hf];
      [discriminate|].
    destruct (Z.eqb_spec
                (indexOf text closing
                   (indexOf text opening lastIndex + strlen opening)) (-1))
      as [|Hc]; [discriminate|].
    injection He as <- <-.
    destruct (indexOf_found text opening lastIndex Hpos Hf) as [Hol Hoh].
    pose proof (strlen_nonneg opening). pose proof (strlen_nonneg closing).
    destruct (indexOf_found text closing
                (indexOf text opening lastIndex + strlen opening))
      as [Hcl Hch]; [lia|exact Hc|].
    rewrite strlen_slice by lia. f_equal. lia.
Qed.

Lemma matches_from_indexes (pattern : Pattern) (text : jsstring) :
  wellFormed pattern ->
  forall fuel lastIndex,
    0 <= lastIndex ->
    Forall (fun m => indexes text (rangeOfMatch m))
      (matches_from fuel pattern text lastIndex).
Proof.
  intros Hwf. induction fuel as [|fuel IH]; intros lastIndex Hpos; simpl;
    [constructor|].
  destruct (exec pattern text lastIndex) as [[index original]|] eqn:E;
    [|constructor].
  pose proof (exec_indexes _ _ _ _ _ Hwf Hpos E) as Hi.
  constructor; [exact Hi|]. apply IH.
  destruct Hi as (H0 & Hlt & _). simpl in *. lia.
Qed.

(** X17: every range [extractComments] returns lies in the document, is not
    empty, and delimits its [original]: the slice of the document from
    [start] to [end] is the matched comment with its markers. *)
Theorem extractComments_ranges (text : jsstring) (languageId : string) :
  Forall (indexes text) (extractComments text languageId).
Proof.
  rewrite extractComments_matches. apply List.Forall_forall. intros r Hr.
  apply in_flat_map in Hr as (pattern & Hp & Hr).
  apply in_flat_map in Hr as (m & Hm & Hr).
  unfold retainedMatch in Hr. destruct (aboveTenth _); [|destruct Hr].
  destruct Hr as [<-|[]].
  pose proof (matches_from_indexes pattern text
                (patterns_wellFormed languageId pattern Hp)
                (S (List.length text)) 0 ltac:(lia)) as Hall.
  rewrite List.Forall_forall in Hall. now apply Hall.
Qed.

Lemma within_refl (a : jsstring) : within a a.
Proof. exists [], []. now rewrite app_nil_r. Qed.

Lemma within_trans (a b c : jsstring) : within a b -> within b c -> within a c.
Proof.
  intros (p1 & q1 & ->) (p2 & q2 & ->). exists (p2 ++ p1), (q1 ++ q2).
  now rewrite <- !app_assoc.
Qed.

Lemma dropWhile_within (p : Z -> bool) (s : jsstring) :
  exists pre, s = pre ++ dropWhile p s.
Proof.
  induction s as [|c s [pre IH]]; [now exists []|]. simpl.
  destruct (p c); [|now exists []]. exists (c :: pre). simpl. now f_equal.
Qed.

Lemma replacePrefix_within (marker s : jsstring) :
  exists pre, s = pre ++ replacePrefix marker s.
Proof.
  unfold replacePrefix. destruct (starts_with marker s); [|now exists []].
  destruct (dropWhile_within isSpace (drop (List.length marker) s))
    as [pre Hpre].
  exists (take (List.length marker) s ++ pre).
  rewrite <- app_assoc, <- Hpre. symmetry. apply take_drop.
Qed.

Lemma replaceSuffix_within (marker s : jsstring) :
  exists post, s = replaceSuffix marker s ++ post.
Proof.
  unfold replaceSuffix.
  destruct (replacePrefix_within (rev marker) (rev s)) as [pre Hpre].
  exists (rev pre). rewrite <- rev_app_distr, <- Hpre.
  symmetry. apply rev_involutive.
Qed.

Lemma removeMarkers_within (original : jsstring) :
  within (removeMarkers original) original.
Proof.
  unfold removeMarkers.
  repeat
    match goal with
    | |- within (replacePrefix ?m ?s) _ =>
        apply (within_trans _ s);
        [destruct (replacePrefix_within m s) as [pre Hpre];
         exists pre, []; rewrite app_nil_r; exact Hpre|]
    | |- within (replaceSuffix ?m ?s) _ =>
        apply (within_trans _ s);
        [destruct (replaceSuffix_within m s) as [post Hpost];
         exists [], post; exact Hpost|]
    end.
  apply within_refl.
Qed.

Lemma ratio_without_japanese (s : jsstring) :
  List.filter isJapaneseChar s = [] -> (calculateJapaneseRatio s == 0)%Q.
Proof.
  intros H. unfold calculateJapaneseRatio. rewrite H.
  destruct (strlen s =? 0); [reflexivity|].
  unfold Qdiv. apply Qmult_0_l.
Qed.

Lemma ratio_positive_has_japanese (s : jsstring) :
  (0 < calculateJapaneseRatio s)%Q ->
  exists c, In c s /\ isJapaneseChar c = true.
Proof.
  intros Hpos.
  destruct (List.filter isJapaneseChar s) as [|c l] eqn:E.
  - apply ratio_without_japanese in E. rewrite E in Hpos.
    now apply Qlt_irrefl in Hpos.
  - exists c. apply filter_In. rewrite E. now left.
Qed.

(** X18: the text of every range [extractComments] returns is a run of
    consecutive code units of the matched comment, what is left of it once
    the markers are removed at its two ends, and it has at least one
    Japanese character. *)
Theorem extractComments_texts (text : jsstring) (languageId : string) :
  Forall
    (fun r =>
       c_text r = removeMarkers (original r)
       /\ within (c_text r) (original r)
       /\ exists c, In c (c_text r) /\ isJapaneseChar c = true)
    (extractComments text languageId).
Proof.
  rewrite extractComments_matches. apply List.Forall_forall. intros r Hr.
  apply in_flat_map in Hr as (pattern & Hp & Hr).
  apply in_flat_map in Hr as (m & Hm & Hr).
  unfold retainedMatch in Hr.
  destruct (aboveTenth _) eqn:Ea; [|destruct Hr].
  destruct Hr as [<-|[]]. simpl.
  split; [reflexivity|]. split; [apply removeMarkers_within|].
  apply ratio_positive_has_japanese. apply aboveTenth_iff in Ea.
  eapply Qlt_trans; [|exact Ea]. reflexivity.
Qed.

End ExtractionProperties.
